(** * dev-events: Event and Booking models, and the cached database connection

    A shallow embedding of [database/booking.model.ts] (which also carries the
    Event model: [slugify], [normalizeTime], both schemas and their pre-save
    hooks) and of [lib/mongodb.ts] ([connectToDatabase], [getMongoose]).

    JavaScript strings are sequences of UTF-16 code units.  A string is
    modelled here as a [list ascii], one [ascii] per code unit, so the
    development covers the strings whose code units are below 256 (Latin-1).
    On that range [toLowerCase], [trim] and the regular-expression classes
    [\d] and [\s] are modelled exactly. *)

From stdpp Require Import base list strings gmap.
From Stdlib Require Import Ascii String ZArith Lia DecimalString.

Open Scope list_scope.

(** ** JavaScript strings and the built-ins the models call *)

Module JsString.

Abbreviation jsstring := (list ascii).

Definition str (s : string) : jsstring := list_ascii_of_string s.

Definition code (c : ascii) : nat := nat_of_ascii c.

(** [\d] (no unicode flag): the ten ASCII digits. *)
Definition is_digit (c : ascii) : bool :=
  (48 <=? code c)%nat && (code c <=? 57)%nat.

(** WhiteSpace and LineTerminator code units below 256: TAB, LF, VT, FF, CR,
    SP and NBSP.  This is the class [\s] and what [trim] strips. *)
Definition is_white_space (c : ascii) : bool :=
  match code c with
  | 9 | 10 | 11 | 12 | 13 | 32 | 160 => true
  | _ => false
  end%nat.

(** One code unit of [String.prototype.toLowerCase]: A-Z, and the Latin-1
    capitals U+00C0..U+00DE other than the multiplication sign U+00D7. *)
Definition lower_char (c : ascii) : ascii :=
  let n := code c in
  if ((65 <=? n) && (n <=? 90) || (192 <=? n) && (n <=? 222) && negb (n =? 215))%nat
  then ascii_of_nat (n + 32)
  else c.

Definition toLowerCase (s : jsstring) : jsstring := map lower_char s.

Fixpoint dropWhile (P : ascii -> bool) (s : jsstring) : jsstring :=
  match s with
  | [] => []
  | c :: t => if P c then dropWhile P t else s
  end.

(** Remove the run of [P] characters that reaches the end of the string. *)
Fixpoint dropWhileEnd (P : ascii -> bool) (s : jsstring) : jsstring :=
  match s with
  | [] => []
  | c :: t => if forallb P s then [] else c :: dropWhileEnd P t
  end.

Definition trimStart (s : jsstring) : jsstring := dropWhile is_white_space s.
Definition trimEnd (s : jsstring) : jsstring := dropWhileEnd is_white_space s.
Definition trim (s : jsstring) : jsstring := trimEnd (trimStart s).

(** [parseInt(s, 10)] on a string of decimal digits; it reads the leading
    digits.  Both call sites pass a capture of [\d{1,2}] or [\d{2}], so the
    sign, white-space and NaN cases of [parseInt] do not arise. *)
Definition digit_value (c : ascii) : Z := Z.of_nat (code c) - 48.

Fixpoint parseInt_acc (acc : Z) (s : jsstring) : Z :=
  match s with
  | c :: t => if is_digit c then parseInt_acc (10 * acc + digit_value c) t else acc
  | [] => acc
  end.

Definition parseInt (s : jsstring) : Z := parseInt_acc 0 s.

(** [String(n)] for an integer [n]. *)
Definition String_ (n : Z) : jsstring :=
  list_ascii_of_string (NilZero.string_of_int (Z.to_int n)).

(** [s.padStart(n, c)] for a one-character pad string. *)
Definition padStart (n : nat) (c : ascii) (s : jsstring) : jsstring :=
  repeat c (n - List.length s) ++ s.

(** [s.replace(/[P]+/g, r)]: every maximal run of [P] characters becomes [r].
    [in_run] records that the previous character belonged to the run that is
    being replaced. *)
Fixpoint replace_runs_from (P : ascii -> bool) (r : jsstring) (in_run : bool)
    (s : jsstring) : jsstring :=
  match s with
  | [] => []
  | c :: t =>
      if P c then (if in_run then [] else r) ++ replace_runs_from P r true t
      else c :: replace_runs_from P r false t
  end.

Definition replace_runs (P : ascii -> bool) (r : jsstring) (s : jsstring) : jsstring :=
  replace_runs_from P r false s.

(** The completion of a call: a value, or [throw new Error(message)]. *)
Inductive Completion (A : Type) : Type :=
  | Return (value : A)
  | Throw (message : string).
Arguments Return {A} value.
Arguments Throw {A} message.

End JsString.

Import JsString.

(** ** SlugGenerator: [slugify] *)

Module Slug.

Definition hyphen : ascii := "-"%char.

Definition is_hyphen (c : ascii) : bool := Ascii.eqb c hyphen.

(** The class [[a-z0-9]]. *)
Definition is_alnum (c : ascii) : bool :=
  ((97 <=? code c) && (code c <=? 122) || (48 <=? code c) && (code c <=? 57))%nat.

(** The class [[^a-z0-9]]. *)
Definition not_alnum (c : ascii) : bool := negb (is_alnum c).

(** [s.replace(/^-+|-+$/g, '')].  At index 0 the first alternative removes
    the leading hyphens; at any later index [^] fails, and [-+$] matches only
    a run of hyphens that reaches the end of the string. *)
Definition strip_hyphens (s : jsstring) : jsstring :=
  dropWhileEnd is_hyphen (dropWhile is_hyphen s).

Definition slugify (value : jsstring) : jsstring :=
  let lowered := toLowerCase value in
  let trimmed := trim lowered in
  let dashed := replace_runs not_alnum [hyphen] trimmed in
  let stripped := strip_hyphens dashed in
  replace_runs is_hyphen [hyphen] stripped.

(** The maximal runs of [[a-z0-9]] characters of a string, in order; [cur] is
    the run being read. *)
Definition emit (cur : jsstring) : list jsstring :=
  match cur with [] => [] | _ => [cur] end.

Fixpoint words_from (cur : jsstring) (s : jsstring) : list jsstring :=
  match s with
  | [] => emit cur
  | c :: t =>
      if is_alnum c then words_from (cur ++ [c]) t
      else emit cur ++ words_from [] t
  end.

Definition words (s : jsstring) : list jsstring := words_from [] s.

Fixpoint join_words (ws : list jsstring) : jsstring :=
  match ws with
  | [] => []
  | [w] => w
  | w :: rest => w ++ hyphen :: join_words rest
  end.

(** A slug in canonical form: only [[a-z0-9]] and hyphens, and every hyphen
    stands between two [[a-z0-9]] characters (so none leads, none trails and
    no two are adjacent).  [prev] tells whether the previous character was in
    [[a-z0-9]]. *)
Fixpoint canonical_from (prev : bool) (s : jsstring) : bool :=
  match s with
  | [] => true
  | c :: t =>
      if is_alnum c then canonical_from true t
      else is_hyphen c && prev
           && match t with c' :: _ => is_alnum c' | [] => false end
           && canonical_from false t
  end.

Definition canonical (s : jsstring) : bool := canonical_from false s.

(** What [replace(/[^a-z0-9]+/g, '-')] produces: [[a-z0-9]] and hyphens only,
    no two hyphens adjacent.  [prev_hyphen] tells whether the previous
    character was a hyphen. *)
Fixpoint dashed_from (prev_hyphen : bool) (s : jsstring) : bool :=
  match s with
  | [] => true
  | c :: t =>
      if is_alnum c then dashed_from false t
      else is_hyphen c && negb prev_hyphen && dashed_from true t
  end.

Definition starts_with_hyphen (s : jsstring) : bool :=
  match s with c :: _ => is_hyphen c | [] => false end.

Definition ends_with_hyphen (s : jsstring) : bool :=
  match last s with Some c => is_hyphen c | None => false end.

(** *** Character classes *)

Ltac ascii_cases c :=
  destruct c as [[] [] [] [] [] [] [] []]; vm_compute; try done.

Lemma is_hyphen_eq c : is_hyphen c = true -> c = hyphen.
Proof. unfold is_hyphen. intros H. by apply Ascii.eqb_eq. Qed.

Lemma hyphen_not_alnum c : is_hyphen c = true -> is_alnum c = false.
Proof. intros H. apply is_hyphen_eq in H. by subst. Qed.

Lemma alnum_not_hyphen c : is_alnum c = true -> is_hyphen c = false.
Proof.
  intros H. destruct (is_hyphen c) eqn:E; [|done].
  apply hyphen_not_alnum in E. congruence.
Qed.

Lemma lower_char_alnum c : is_alnum c = true -> lower_char c = c.
Proof. ascii_cases c. Qed.

Lemma lower_char_hyphen : lower_char hyphen = hyphen.
Proof. reflexivity. Qed.

Lemma alnum_not_white_space c : is_alnum c = true -> is_white_space c = false.
Proof. ascii_cases c. Qed.

Lemma white_space_not_alnum c : is_white_space c = true -> is_alnum c = false.
Proof.
  intros H. destruct (is_alnum c) eqn:E; [|done].
  apply alnum_not_white_space in E. congruence.
Qed.

Lemma hyphen_not_white_space c : is_hyphen c = true -> is_white_space c = false.
Proof. intros H. apply is_hyphen_eq in H. by subst. Qed.

(** *** The runs of [[a-z0-9]] characters survive every step of [slugify] *)

Section WordsPreserved.

Variable P : ascii -> bool.
Hypothesis P_sep : forall c, P c = true -> is_alnum c = false.

Lemma words_from_all_sep cur s :
  forallb P s = true -> words_from cur s = emit cur.
Proof.
  revert cur. induction s as [|c t IH]; intros cur H; [done|].
  simpl in *. apply andb_prop in H as [Hc Ht].
  rewrite (P_sep _ Hc), (IH [] Ht). simpl. by rewrite app_nil_r.
Qed.

Lemma words_from_replace_runs cur b s :
  (b = true -> cur = []) ->
  words_from cur (replace_runs_from P [hyphen] b s) = words_from cur s.
Proof.
  revert cur b. induction s as [|c t IH]; intros cur b Hb; [done|].
  simpl. destruct (P c) eqn:Hc.
  - rewrite (P_sep _ Hc). destruct b; simpl.
    + rewrite (Hb eq_refl). simpl. by apply IH.
    + f_equal. by apply IH.
  - simpl. destruct (is_alnum c); [|f_equal]; by apply IH.
Qed.

Lemma words_dropWhile s : words (dropWhile P s) = words s.
Proof.
  unfold words. induction s as [|c t IH]; [done|].
  simpl. destruct (P c) eqn:Hc; [|done].
  by rewrite (P_sep _ Hc).
Qed.

Lemma words_from_dropWhileEnd cur s :
  words_from cur (dropWhileEnd P s) = words_from cur s.
Proof.
  revert cur. induction s as [|c t IH]; intros cur; [done|].
  cbn [dropWhileEnd]. destruct (forallb P (c :: t)) eqn:Hall.
  - symmetry. by apply words_from_all_sep.
  - simpl. destruct (is_alnum c); [|f_equal]; apply IH.
Qed.

End WordsPreserved.

Lemma words_trim s : words (trim s) = words s.
Proof.
  unfold trim, trimEnd, trimStart, words.
  rewrite (words_from_dropWhileEnd _ white_space_not_alnum).
  apply (words_dropWhile _ white_space_not_alnum).
Qed.

Lemma not_alnum_sep c : not_alnum c = true -> is_alnum c = false.
Proof. unfold not_alnum. by destruct (is_alnum c). Qed.

Lemma words_slugify s : words (slugify s) = words (trim (toLowerCase s)).
Proof.
  unfold slugify, replace_runs, strip_hyphens, words.
  rewrite (words_from_replace_runs _ hyphen_not_alnum) by done.
  rewrite (words_from_dropWhileEnd _ hyphen_not_alnum).
  fold (words (dropWhile is_hyphen
    (replace_runs_from not_alnum [hyphen] false (trim (toLowerCase s))))).
  rewrite (words_dropWhile _ hyphen_not_alnum). unfold words.
  by rewrite (words_from_replace_runs _ not_alnum_sep).
Qed.

(** *** The shape of the intermediate strings *)

Lemma dashed_from_weaken b s : dashed_from b s = true -> dashed_from false s = true.
Proof.
  destruct s as [|c t]; [done|]. simpl.
  destruct (is_alnum c); [done|]. destruct b; [|done].
  by rewrite andb_false_r.
Qed.

Lemma dashed_replace_runs b s :
  dashed_from b (replace_runs_from not_alnum [hyphen] b s) = true.
Proof.
  revert b. induction s as [|c t IH]; intros b; [done|].
  simpl. unfold not_alnum at 1. destruct (is_alnum c) eqn:Hc; simpl.
  - rewrite Hc. apply IH.
  - destruct b; simpl; [apply IH|]. apply IH.
Qed.

Lemma dashed_dropWhile b s :
  dashed_from b s = true -> dashed_from false (dropWhile is_hyphen s) = true.
Proof.
  revert b. induction s as [|c t IH]; intros b H; [done|].
  simpl. destruct (is_hyphen c) eqn:Hc.
  - simpl in H. rewrite (hyphen_not_alnum _ Hc), Hc in H.
    destruct b; [done|]. by apply (IH true).
  - by apply dashed_from_weaken with b.
Qed.

Lemma dashed_dropWhileEnd b s :
  dashed_from b s = true -> dashed_from b (dropWhileEnd is_hyphen s) = true.
Proof.
  revert b. induction s as [|c t IH]; intros b H; [done|].
  cbn [dropWhileEnd]. destruct (forallb is_hyphen (c :: t)); [done|].
  simpl in *. destruct (is_alnum c); [by apply IH|].
  destruct (is_hyphen c), b; try done. by apply IH.
Qed.

Lemma starts_dropWhile s : starts_with_hyphen (dropWhile is_hyphen s) = false.
Proof.
  induction s as [|c t IH]; [done|]. simpl.
  destruct (is_hyphen c) eqn:Hc; [done|]. simpl. by rewrite Hc.
Qed.

Lemma starts_dropWhileEnd s :
  starts_with_hyphen s = false ->
  starts_with_hyphen (dropWhileEnd is_hyphen s) = false.
Proof.
  destruct s as [|c t]; [done|]. cbn [dropWhileEnd starts_with_hyphen].
  intros Hc. simpl. by rewrite Hc.
Qed.

Lemma ends_cons c t :
  ends_with_hyphen (c :: t) =
  match t with [] => is_hyphen c | _ => ends_with_hyphen t end.
Proof. by destruct t. Qed.

Lemma ends_dropWhileEnd s : ends_with_hyphen (dropWhileEnd is_hyphen s) = false.
Proof.
  induction s as [|c t IH]; [done|].
  cbn [dropWhileEnd]. destruct (forallb is_hyphen (c :: t)) eqn:Hall; [done|].
  rewrite ends_cons. destruct t as [|c' t'].
  - simpl in *. by rewrite andb_true_r in Hall.
  - cbn [dropWhileEnd] in *. destruct (forallb is_hyphen (c' :: t')) eqn:Ht.
    + simpl in Hall. simpl in Ht. rewrite Ht, andb_true_r in Hall. done.
    + done.
Qed.

(** A dashed string is left as it is by [replace(/-+/g, '-')]. *)
Lemma collapse_dashed b s :
  dashed_from b s = true -> replace_runs_from is_hyphen [hyphen] b s = s.
Proof.
  revert b. induction s as [|c t IH]; intros b H; [done|].
  simpl in *. destruct (is_alnum c) eqn:Hc.
  - rewrite (alnum_not_hyphen _ Hc). f_equal. by apply IH.
  - destruct (is_hyphen c) eqn:Hh; [|done]. destruct b; [done|].
    simpl. rewrite (is_hyphen_eq _ Hh). f_equal. by apply IH.
Qed.

Lemma canonical_of_dashed ph prev s :
  dashed_from ph s = true ->
  ends_with_hyphen s = false ->
  (prev = false -> starts_with_hyphen s = false) ->
  canonical_from prev s = true.
Proof.
  revert ph prev. induction s as [|c t IH]; intros ph prev Hd He Hs; [done|].
  simpl in *. rewrite ends_cons in He. destruct (is_alnum c) eqn:Hc.
  - apply (IH false); [done| |done]. by destruct t.
  - destruct (is_hyphen c) eqn:Hh; [|done].
    destruct prev; [|by specialize (Hs eq_refl)].
    destruct ph; [done|]. simpl in Hd.
    destruct t as [|c' t']; [done|].
    assert (is_alnum c' = true) as Hc'.
    { simpl in Hd. destruct (is_alnum c'); [done|]. by rewrite andb_false_r in Hd. }
    rewrite Hc'. simpl. apply (IH true); [done|done|].
    intros _. simpl. by apply alnum_not_hyphen.
Qed.

Lemma slugify_stripped s :
  slugify s =
  strip_hyphens (replace_runs not_alnum [hyphen] (trim (toLowerCase s))).
Proof.
  unfold slugify, replace_runs. apply collapse_dashed.
  unfold strip_hyphens. apply dashed_dropWhileEnd.
  apply (dashed_dropWhile false), dashed_replace_runs.
Qed.

Lemma slugify_canonical s : canonical (slugify s) = true.
Proof.
  rewrite slugify_stripped. unfold canonical, strip_hyphens, replace_runs.
  apply (canonical_of_dashed false).
  - apply dashed_dropWhileEnd, (dashed_dropWhile false), dashed_replace_runs.
  - apply ends_dropWhileEnd.
  - intros _. apply starts_dropWhileEnd, starts_dropWhile.
Qed.

(** *** A canonical slug is its words joined by hyphens *)

Lemma words_from_nonempty cur s : cur <> [] -> words_from cur s <> [].
Proof.
  revert cur. induction s as [|c t IH]; intros cur H.
  - by destruct cur.
  - simpl. destruct (is_alnum c).
    + apply IH. by destruct cur.
    + by destruct cur.
Qed.

Lemma join_words_cons w ws :
  ws <> [] -> join_words (w :: ws) = w ++ hyphen :: join_words ws.
Proof. by destruct ws. Qed.

Lemma join_words_canonical cur s :
  canonical_from (negb (bool_decide (cur = []))) s = true ->
  join_words (words_from cur s) = cur ++ s.
Proof.
  revert cur. induction s as [|c t IH]; intros cur H.
  - simpl. rewrite app_nil_r. by destruct cur.
  - simpl in *. destruct (is_alnum c) eqn:Hc.
    + rewrite IH; [by rewrite <- app_assoc|].
      rewrite bool_decide_eq_false_2; [done|]. by destruct cur.
    + destruct (is_hyphen c) eqn:Hh; [|done].
      destruct cur as [|a cur]; [done|]. simpl in H.
      destruct t as [|c' t']; [done|].
      destruct (is_alnum c') eqn:Hc'; [|done]. simpl in H.
      cbn [emit app]. rewrite join_words_cons.
      * rewrite (IH []) by done. by rewrite (is_hyphen_eq _ Hh).
      * simpl. rewrite Hc'. by apply words_from_nonempty.
Qed.

Lemma canonical_join_words s : canonical s = true -> join_words (words s) = s.
Proof. intros H. by apply (join_words_canonical []). Qed.

Lemma slugify_closed_form s :
  slugify s = join_words (words (trim (toLowerCase s))).
Proof.
  rewrite <- words_slugify. symmetry.
  apply canonical_join_words, slugify_canonical.
Qed.

(** *** A canonical slug is a fixed point *)

Definition is_slug_char (c : ascii) : bool := is_alnum c || is_hyphen c.

Lemma canonical_chars prev s :
  canonical_from prev s = true -> forallb is_slug_char s = true.
Proof.
  revert prev. induction s as [|c t IH]; intros prev H; [done|].
  simpl in *. unfold is_slug_char at 1. destruct (is_alnum c); simpl.
  - by apply (IH true).
  - destruct (is_hyphen c); [|done]. simpl.
    apply (IH false). repeat (apply andb_prop in H as [H ?]). done.
Qed.

Lemma lower_char_slug c : is_slug_char c = true -> lower_char c = c.
Proof.
  unfold is_slug_char. intros H. apply orb_prop in H as [H|H].
  - by apply lower_char_alnum.
  - apply is_hyphen_eq in H. by subst.
Qed.

Lemma slug_char_not_white_space c :
  is_slug_char c = true -> is_white_space c = false.
Proof.
  unfold is_slug_char. intros H. apply orb_prop in H as [H|H].
  - by apply alnum_not_white_space.
  - by apply hyphen_not_white_space.
Qed.

Lemma toLowerCase_slug s : forallb is_slug_char s = true -> toLowerCase s = s.
Proof.
  induction s as [|c t IH]; [done|]. simpl. intros H.
  apply andb_prop in H as [Hc Ht]. by rewrite lower_char_slug, IH.
Qed.

Lemma trim_slug s : forallb is_slug_char s = true -> trim s = s.
Proof.
  intros H. unfold trim, trimStart, trimEnd.
  assert (dropWhile is_white_space s = s) as ->.
  { destruct s as [|c t]; [done|]. simpl in *.
    apply andb_prop in H as [Hc _]. by rewrite slug_char_not_white_space. }
  induction s as [|c t IH]; [done|].
  cbn [dropWhileEnd]. simpl in *. apply andb_prop in H as [Hc Ht].
  rewrite (slug_char_not_white_space _ Hc). simpl. by rewrite IH.
Qed.

Lemma slugify_fixes_canonical s : canonical s = true -> slugify s = s.
Proof.
  intros H. rewrite slugify_closed_form.
  pose proof (canonical_chars _ _ H) as Hc.
  rewrite toLowerCase_slug, trim_slug by done.
  by apply canonical_join_words.
Qed.

(** C4.  [slugify] is a total function from strings to strings (no error
    result).  Its value is the lower-cased, trimmed text with every maximal
    run of characters outside [[a-z0-9]] turned into one hyphen and no hyphen
    left at either end: the maximal [[a-z0-9]] runs of that text, in order,
    joined by single hyphens.  The result holds only [[a-z0-9]] and hyphens,
    each hyphen between two [[a-z0-9]] characters.  The empty string gives the
    empty string, and the two examples of the specification evaluate as
    stated. *)
Theorem slugify_spec :
  (forall s : jsstring,
      slugify s = join_words (words (trim (toLowerCase s)))
      /\ canonical (slugify s) = true
      /\ forallb is_slug_char (slugify s) = true
      /\ starts_with_hyphen (slugify s) = false
      /\ ends_with_hyphen (slugify s) = false
      /\ dashed_from false (slugify s) = true)
  /\ slugify [] = []
  /\ slugify (str "Hello, World!  Foo") = str "hello-world-foo"
  /\ slugify (str "  --Multi---Space--  ") = str "multi-space".
Proof.
  split; [|by vm_compute].
  intros s. split; [apply slugify_closed_form|].
  split; [apply slugify_canonical|].
  split; [apply (canonical_chars false), slugify_canonical|].
  rewrite slugify_stripped. unfold strip_hyphens, replace_runs.
  split; [apply starts_dropWhileEnd, starts_dropWhile|].
  split; [apply ends_dropWhileEnd|].
  apply dashed_dropWhileEnd, (dashed_dropWhile false), dashed_replace_runs.
Qed.

(** C9.  [slugify] is idempotent: a slug passed back through [slugify] is
    unchanged. *)
Theorem slugify_idempotent (s : jsstring) : slugify (slugify s) = slugify s.
Proof. apply slugify_fixes_canonical, slugify_canonical. Qed.

End Slug.

(** ** Regular expressions, as the backtracking matcher runs them *)

Module Regex.

(** A matcher reads a prefix of its input and lists every way to do so as
    (matched text, rest of the input), in the order a backtracking engine
    tries them: the first entry is the engine's first choice. *)
Definition matcher := jsstring -> list (jsstring * jsstring).

(** One character of a class. *)
Definition char_class (P : ascii -> bool) : matcher := fun s =>
  match s with
  | c :: t => if P c then [([c], t)] else []
  | [] => []
  end.

(** A literal character. *)
Definition lit (c : ascii) : matcher := char_class (Ascii.eqb c).

(** Concatenation [m1 m2]. *)
Definition seq (m1 m2 : matcher) : matcher := fun s =>
  '(a, r1) ← m1 s; '(b, r2) ← m2 r1; [(a ++ b, r2)].

(** Alternation [m1|m2]: the left alternative is tried first. *)
Definition alt (m1 m2 : matcher) : matcher := fun s => m1 s ++ m2 s.

(** The empty match. *)
Definition eps : matcher := fun s => [([], s)].

(** A literal word, such as [am]. *)
Fixpoint word (w : jsstring) : matcher :=
  match w with
  | [] => eps
  | c :: w' => seq (lit c) (word w')
  end.

(** Greedy [[P]*]: longest run first. *)
Fixpoint star (P : ascii -> bool) (s : jsstring) : list (jsstring * jsstring) :=
  match s with
  | c :: t =>
      if P c then ((fun '(m, r) => (c :: m, r)) <$> star P t) ++ [([], s)]
      else [([], s)]
  | [] => [([], [])]
  end.

(** Greedy [[P]+]. *)
Definition plus (P : ascii -> bool) : matcher := seq (char_class P) (star P).

(** [$] without the multiline flag: the end of the input. *)
Definition eof : matcher := fun s =>
  match s with [] => [([], [])] | _ => [] end.

(** [\d{1,2}], greedy: two digits are tried before one. *)
Definition digits_1_2 : matcher :=
  seq (char_class is_digit) (alt (char_class is_digit) eps).

(** [\d{2}]. *)
Definition digits_2 : matcher := seq (char_class is_digit) (char_class is_digit).

(** *** What each matcher lists *)

Lemma elem_bind_pair {A B C} (l : list (A * B)) (f : A -> B -> list C) (x : C) :
  x ∈ (l ≫= λ '(a, b), f a b) <-> exists a b, (a, b) ∈ l /\ x ∈ f a b.
Proof.
  rewrite list_elem_of_bind. split.
  - intros [[a b] [? ?]]. eauto.
  - intros (a & b & ? & ?). by exists (a, b).
Qed.

Lemma elem_char_class P m r s :
  (m, r) ∈ char_class P s <-> exists c, P c = true /\ m = [c] /\ s = c :: r.
Proof.
  unfold char_class. destruct s as [|c t].
  - rewrite elem_of_nil. split; [done|]. by intros (? & _ & _ & ?).
  - destruct (P c) eqn:Hc.
    + rewrite list_elem_of_singleton. split.
      * intros [= -> ->]. eauto.
      * by intros (? & _ & -> & [= <- <-]).
    + rewrite elem_of_nil. split; [done|].
      intros (? & ? & _ & [= <- _]). congruence.
Qed.

Lemma elem_lit c m r s : (m, r) ∈ lit c s <-> m = [c] /\ s = c :: r.
Proof.
  unfold lit. rewrite elem_char_class. split.
  - intros (c' & Hc & -> & ->). apply Ascii.eqb_eq in Hc. by subst.
  - intros [-> ->]. exists c. by rewrite Ascii.eqb_refl.
Qed.

Lemma elem_seq m1 m2 m r s :
  (m, r) ∈ seq m1 m2 s <->
  exists a b r1, (a, r1) ∈ m1 s /\ (b, r) ∈ m2 r1 /\ m = a ++ b.
Proof.
  unfold seq. rewrite elem_bind_pair. split.
  - intros (a & r1 & H1 & H). apply elem_bind_pair in H as (b & r2 & H2 & H).
    apply list_elem_of_singleton in H as [= -> ->]. eauto 6.
  - intros (a & b & r1 & H1 & H2 & ->). exists a, r1. split; [done|].
    apply elem_bind_pair. exists b, r. split; [done|].
    by apply list_elem_of_singleton.
Qed.

Lemma elem_alt m1 m2 m r s :
  (m, r) ∈ alt m1 m2 s <-> (m, r) ∈ m1 s \/ (m, r) ∈ m2 s.
Proof. unfold alt. apply elem_of_app. Qed.

Lemma elem_eps m r s : (m, r) ∈ eps s <-> m = [] /\ r = s.
Proof.
  unfold eps. rewrite list_elem_of_singleton. split; [by intros [= -> ->]|].
  by intros [-> ->].
Qed.

Lemma elem_word w m r s : (m, r) ∈ word w s <-> m = w /\ s = w ++ r.
Proof.
  revert m r s. induction w as [|c w IH]; intros m r s; simpl.
  - rewrite elem_eps. split; intros [-> ->]; done.
  - rewrite elem_seq. split.
    + intros (a & b & r1 & Ha & Hb & ->).
      apply elem_lit in Ha as [-> ->]. apply IH in Hb as [-> ->]. done.
    + intros [-> ->]. exists [c], w, (w ++ r).
      rewrite elem_lit, IH. done.
Qed.

Lemma elem_star P m r s :
  (m, r) ∈ star P s <-> s = m ++ r /\ forallb P m = true.
Proof.
  revert m r. induction s as [|c t IH]; intros m r; simpl.
  - rewrite list_elem_of_singleton. split; [by intros [= -> ->]|].
    intros [H _]. symmetry in H. by apply app_eq_nil in H as [-> ->].
  - destruct (P c) eqn:Hc.
    + rewrite elem_of_app, list_elem_of_fmap, list_elem_of_singleton. split.
      * intros [([m' r'] & [= -> ->] & H)|[= -> ->]]; [|done].
        apply IH in H as [-> H]. simpl. by rewrite Hc.
      * intros [H Hm]. destruct m as [|c' m']; [right; simpl in H; by subst|].
        left. simpl in *. injection H as <- ->.
        apply andb_prop in Hm as [_ Hm]. exists (m', r). split; [done|].
        by apply IH.
    + rewrite list_elem_of_singleton. split; [by intros [= -> ->]|].
      intros [H Hm]. destruct m as [|c' m']; [simpl in H; by subst|].
      simpl in *. injection H as <- ->. by rewrite Hc in Hm.
Qed.

Lemma elem_plus P m r s :
  (m, r) ∈ plus P s <-> s = m ++ r /\ forallb P m = true /\ m <> [].
Proof.
  unfold plus. rewrite elem_seq. split.
  - intros (a & b & r1 & Ha & Hb & ->).
    apply elem_char_class in Ha as (c & Hc & -> & ->).
    apply elem_star in Hb as [-> Hb]. simpl. by rewrite Hc, Hb.
  - intros (-> & Hm & Hne). destruct m as [|c m']; [done|].
    simpl in Hm. apply andb_prop in Hm as [Hc Hm].
    exists [c], m', (m' ++ r). rewrite elem_char_class, elem_star. naive_solver.
Qed.

Lemma elem_eof m r s : (m, r) ∈ eof s <-> m = [] /\ r = [] /\ s = [].
Proof.
  unfold eof. destruct s.
  - rewrite list_elem_of_singleton. split; [by intros [= -> ->]|].
    by intros (-> & -> & _).
  - rewrite elem_of_nil. split; [done|]. by intros (_ & _ & ?).
Qed.

Lemma elem_digits_2 m r s :
  (m, r) ∈ digits_2 s <->
  s = m ++ r /\ forallb is_digit m = true /\ List.length m = 2%nat.
Proof.
  unfold digits_2. rewrite elem_seq. split.
  - intros (a & b & r1 & Ha & Hb & ->).
    apply elem_char_class in Ha as (c1 & H1 & -> & ->).
    apply elem_char_class in Hb as (c2 & H2 & -> & ->).
    simpl. by rewrite H1, H2.
  - intros (-> & Hm & Hl). destruct m as [|c1 [|c2 [|]]]; try done.
    simpl in Hm. apply andb_prop in Hm as [H1 Hm].
    apply andb_prop in Hm as [H2 _].
    exists [c1], [c2], (c2 :: r). rewrite !elem_char_class. naive_solver.
Qed.

Lemma elem_digits_1_2 m r s :
  (m, r) ∈ digits_1_2 s <->
  s = m ++ r /\ forallb is_digit m = true
  /\ (List.length m = 1%nat \/ List.length m = 2%nat).
Proof.
  unfold digits_1_2. rewrite elem_seq. split.
  - intros (a & b & r1 & Ha & Hb & ->).
    apply elem_char_class in Ha as (c1 & H1 & -> & ->).
    apply elem_alt in Hb as [Hb|Hb].
    + apply elem_char_class in Hb as (c2 & H2 & -> & ->).
      simpl. rewrite H1, H2. auto.
    + apply elem_eps in Hb as [-> ->]. simpl. rewrite H1. auto.
  - intros (-> & Hm & Hl). destruct m as [|c1 [|c2 [|]]]; simpl in Hl; try lia.
    + simpl in Hm. apply andb_prop in Hm as [H1 _].
      exists [c1], [], r. rewrite elem_char_class, elem_alt, elem_eps.
      split; [by exists c1|]. split; [by right|done].
    + simpl in Hm. apply andb_prop in Hm as [H1 Hm].
      apply andb_prop in Hm as [H2 _].
      exists [c1], [c2], (c2 :: r).
      rewrite elem_char_class, elem_alt, elem_char_class.
      split; [by exists c1|]. split; [left; by exists c2|done].
Qed.

(** [match] returns the engine's first successful run. *)
Lemma head_unique {A} (l : list A) (x : A) :
  (forall y, y ∈ l -> y = x) -> x ∈ l -> head l = Some x.
Proof.
  destruct l as [|a l]; intros Hu Hx; [by apply elem_of_nil in Hx|].
  simpl. f_equal. apply Hu. by left.
Qed.

Lemma head_elem {A} (l : list A) (x : A) : head l = Some x -> x ∈ l.
Proof. destruct l; [done|]. intros [= ->]. by left. Qed.

Lemma head_none {A} (l : list A) : head l = None <-> forall x, x ∉ l.
Proof.
  destruct l as [|a l]; simpl.
  - split; [|done]. intros _ x. apply not_elem_of_nil.
  - split; [done|]. intros H. destruct (H a). by left.
Qed.

(** A run of [P] characters followed by a character outside [P] (or by the
    end) can be read off a string in one way only. *)
Definition stops (P : ascii -> bool) (r : jsstring) : Prop :=
  match r with c :: _ => P c = false | [] => True end.

Lemma run_unique P a a' r r' :
  a ++ r = a' ++ r' ->
  forallb P a = true -> forallb P a' = true ->
  stops P r -> stops P r' ->
  a = a' /\ r = r'.
Proof.
  revert a'. induction a as [|c a IH]; intros a' E Ha Ha' Hr Hr'.
  - destruct a' as [|c' a']; [done|]. simpl in *. subst r.
    apply andb_prop in Ha' as [Hc _]. simpl in Hr. congruence.
  - destruct a' as [|c' a'].
    + simpl in *. subst r'. apply andb_prop in Ha as [Hc _].
      simpl in Hr'. congruence.
    + simpl in *. injection E as <- E.
      apply andb_prop in Ha as [_ Ha]. apply andb_prop in Ha' as [_ Ha'].
      destruct (IH a' E Ha Ha' Hr Hr') as [-> ->]. done.
Qed.

End Regex.

(** ** TimeNormalizer: [normalizeTime] *)

Module TimeNormalizer.

Import Regex.

(** [trimmed.match(/^(\d{1,2}):(\d{2})$/)]: every successful run of the
    matcher with its two captures; [match] returns the first. *)
Definition h24_matches (s : jsstring) : list (jsstring * jsstring) :=
  '(g1, r1) ← digits_1_2 s;
  '(_, r2) ← lit ":" r1;
  '(g2, r3) ← digits_2 r2;
  '(_, _) ← eof r3;
  [(g1, g2)].

Definition h24_match (s : jsstring) : option (jsstring * jsstring) :=
  head (h24_matches s).

(** The optional group [(?::(\d{2}))?]: its capture is undefined ([None]) when
    the group is skipped; taking the group is tried first. *)
Definition colon_minutes (s : jsstring) : list (option jsstring * jsstring) :=
  ('(_, r1) ← lit ":" s; '(g, r2) ← digits_2 r1; [(Some g, r2)]) ++ [(None, s)].

(** [trimmed.match(/^(\d{1,2})(?::(\d{2}))?\s*(am|pm)$/)]. *)
Definition h12_matches (s : jsstring) : list (jsstring * option jsstring * jsstring) :=
  '(g1, r1) ← digits_1_2 s;
  '(g2, r2) ← colon_minutes r1;
  '(_, r3) ← star is_white_space r2;
  '(g3, r4) ← alt (word (str "am")) (word (str "pm")) r3;
  '(_, _) ← eof r4;
  [(g1, g2, g3)].

Definition h12_match (s : jsstring) : option (jsstring * option jsstring * jsstring) :=
  head (h12_matches s).

(** The template [`${String(hh).padStart(2, '0')}:${String(mm).padStart(2, '0')}`]. *)
Definition format_hh_mm (hh mm : Z) : jsstring :=
  padStart 2 "0" (String_ hh) ++ ":"%char :: padStart 2 "0" (String_ mm).

(** Truthiness of a capture: undefined and the empty string are falsy. *)
Definition truthy (g : option jsstring) : bool :=
  match g with Some (_ :: _) => true | _ => false end.

Definition normalizeTime (input : jsstring) : Completion jsstring :=
  let trimmed := toLowerCase (trim input) in
  match h24_match trimmed with
  | Some (g1, g2) =>
      let hh := parseInt g1 in
      let mm := parseInt g2 in
      if (hh <? 0) || (hh >? 23) || (mm <? 0) || (mm >? 59)
      then Throw "Invalid time"
      else Return (format_hh_mm hh mm)
  | None =>
      match h12_match trimmed with
      | Some (g1, g2, g3) =>
          let hh := parseInt g1 in
          let mm := if truthy g2 then parseInt (default [] g2) else 0 in
          let period := g3 in
          if (hh <? 1) || (hh >? 12) || (mm <? 0) || (mm >? 59)
          then Throw "Invalid time"
          else
            let hh := if bool_decide (period = str "pm") && negb (hh =? 12)
                      then hh + 12 else hh in
            let hh := if bool_decide (period = str "am") && (hh =? 12)
                      then 0 else hh in
            Return (format_hh_mm hh mm)
      | None => Throw "Unrecognized time format"
      end
  end%Z.

(** *** The two input grammars, stated on the trimmed, lower-cased text *)

(** Grammar 1: [H:MM] or [HH:MM]. *)
Definition Grammar24 (s h m : jsstring) : Prop :=
  s = h ++ ":"%char :: m
  /\ forallb is_digit h = true /\ (List.length h = 1 \/ List.length h = 2)%nat
  /\ forallb is_digit m = true /\ List.length m = 2%nat.

Definition minutes_text (mo : option jsstring) : jsstring :=
  match mo with Some m => ":"%char :: m | None => [] end.

(** Grammar 2: [H], [HH], [H:MM] or [HH:MM], then any white space, then [am]
    or [pm]. *)
Definition Grammar12 (s h : jsstring) (mo : option jsstring) (p : jsstring) : Prop :=
  exists w,
    s = h ++ minutes_text mo ++ w ++ p
    /\ forallb is_digit h = true /\ (List.length h = 1 \/ List.length h = 2)%nat
    /\ (forall m, mo = Some m -> forallb is_digit m = true /\ List.length m = 2%nat)
    /\ forallb is_white_space w = true
    /\ (p = str "am" \/ p = str "pm").

(** The minute of a 12-hour input: 0 when it is left out. *)
Definition minutes_value (mo : option jsstring) : Z :=
  match mo with Some m => parseInt m | None => 0 end.

(** The 24-hour equivalent of hour [hh] of the 12-hour clock. *)
Definition hour24 (hh : Z) (p : jsstring) : Z :=
  if bool_decide (p = str "pm")
  then (if bool_decide (hh = 12) then 12 else hh + 12)%Z
  else (if bool_decide (hh = 12) then 0 else hh)%Z.

(** Two decimal digits, zero-padded. *)
Definition two_digits (n : Z) : jsstring :=
  [ascii_of_nat (48 + Z.to_nat (n / 10)); ascii_of_nat (48 + Z.to_nat (n mod 10))].

(** The canonical text [HH:MM]. *)
Definition HH_MM (hh mm : Z) : jsstring :=
  two_digits hh ++ ":"%char :: two_digits mm.

(** Hour and minute in the range of each grammar. *)
Definition in_range_24 (hh mm : Z) : Prop := (0 <= hh <= 23 /\ 0 <= mm <= 59)%Z.
Definition in_range_12 (hh mm : Z) : Prop := (1 <= hh <= 12 /\ 0 <= mm <= 59)%Z.

(** *** The matchers decide the grammars *)

Lemma elem_h24_matches s h m : (h, m) ∈ h24_matches s <-> Grammar24 s h m.
Proof.
  unfold h24_matches, Grammar24. split.
  - intros H.
    apply elem_bind_pair in H as (g1 & r1 & H1 & H).
    apply elem_bind_pair in H as (x & r2 & H2 & H).
    apply elem_bind_pair in H as (g2 & r3 & H3 & H).
    apply elem_bind_pair in H as (y & z & H4 & H).
    apply list_elem_of_singleton in H as [= -> ->].
    apply elem_digits_1_2 in H1 as (-> & Hd1 & Hl1).
    apply elem_lit in H2 as [-> ->].
    apply elem_digits_2 in H3 as (-> & Hd3 & Hl3).
    apply elem_eof in H4 as (-> & -> & ->).
    by rewrite app_nil_r.
  - intros (-> & Hd1 & Hl1 & Hd2 & Hl2).
    apply elem_bind_pair. exists h, (":"%char :: m).
    split; [by apply elem_digits_1_2|].
    apply elem_bind_pair. exists [":"%char], m. split; [by apply elem_lit|].
    apply elem_bind_pair. exists m, [].
    split; [apply elem_digits_2; by rewrite app_nil_r|].
    apply elem_bind_pair. exists [], []. split; [by apply elem_eof|].
    by apply list_elem_of_singleton.
Qed.

Lemma elem_colon_minutes mo r s :
  (mo, r) ∈ colon_minutes s <->
  s = minutes_text mo ++ r
  /\ (forall m, mo = Some m -> forallb is_digit m = true /\ List.length m = 2%nat).
Proof.
  unfold colon_minutes. rewrite elem_of_app, list_elem_of_singleton. split.
  - intros [H|[= -> ->]]; [|done].
    apply elem_bind_pair in H as (x & r1 & H1 & H).
    apply elem_bind_pair in H as (g & r2 & H2 & H).
    apply list_elem_of_singleton in H as [= -> ->].
    apply elem_lit in H1 as [-> ->].
    apply elem_digits_2 in H2 as (-> & Hd & Hl).
    split; [done|]. by intros m [= <-].
  - intros [-> Hm]. destruct mo as [m|]; [left|by right].
    destruct (Hm m eq_refl) as [Hd Hl].
    apply elem_bind_pair. exists [":"%char], (m ++ r).
    split; [by apply elem_lit|].
    apply elem_bind_pair. exists m, r. split; [by apply elem_digits_2|].
    by apply list_elem_of_singleton.
Qed.

Lemma elem_h12_matches s h mo p :
  (h, mo, p) ∈ h12_matches s <-> Grammar12 s h mo p.
Proof.
  unfold h12_matches, Grammar12. split.
  - intros H.
    apply elem_bind_pair in H as (g1 & r1 & H1 & H).
    apply elem_bind_pair in H as (g2 & r2 & H2 & H).
    apply elem_bind_pair in H as (w & r3 & H3 & H).
    apply elem_bind_pair in H as (g3 & r4 & H4 & H).
    apply elem_bind_pair in H as (y & z & H5 & H).
    apply list_elem_of_singleton in H as [= -> -> ->].
    apply elem_digits_1_2 in H1 as (-> & Hd1 & Hl1).
    apply elem_colon_minutes in H2 as [-> Hm].
    apply elem_star in H3 as [-> Hw].
    apply elem_eof in H5 as (-> & -> & ->).
    exists w.
    apply elem_alt in H4 as [H4|H4]; apply elem_word in H4 as [-> ->];
      rewrite app_nil_r; auto 10.
  - intros (w & -> & Hd & Hl & Hm & Hw & Hp).
    apply elem_bind_pair. exists h, (minutes_text mo ++ w ++ p).
    split; [by apply elem_digits_1_2|].
    apply elem_bind_pair. exists mo, (w ++ p).
    split; [by apply elem_colon_minutes|].
    apply elem_bind_pair. exists w, p. split; [by apply elem_star|].
    apply elem_bind_pair. exists p, []. split.
    { apply elem_alt. destruct Hp as [-> | ->]; [left|right];
        by apply elem_word. }
    apply elem_bind_pair. exists [], []. split; [by apply elem_eof|].
    by apply list_elem_of_singleton.
Qed.

(** *** A text has at most one reading, and in one grammar only *)

Lemma white_space_not_digit c : is_white_space c = true -> is_digit c = false.
Proof. Slug.ascii_cases c. Qed.

Lemma Grammar24_unique s h m h' m' :
  Grammar24 s h m -> Grammar24 s h' m' -> h = h' /\ m = m'.
Proof.
  intros (-> & Hd & _ & _ & _) (E & Hd' & _ & _ & _).
  apply (run_unique is_digit) in E as [-> [= ->]]; done.
Qed.

Lemma stops_digit_suffix w p :
  forallb is_white_space w = true -> p = str "am" \/ p = str "pm" ->
  stops is_digit (w ++ p).
Proof.
  intros Hw Hp. destruct w as [|c w]; simpl.
  - by destruct Hp as [-> | ->].
  - simpl in Hw. apply andb_prop in Hw as [Hc _].
    by apply white_space_not_digit.
Qed.

Lemma stops_digit_rest mo w p :
  forallb is_white_space w = true -> p = str "am" \/ p = str "pm" ->
  stops is_digit (minutes_text mo ++ w ++ p).
Proof.
  intros Hw Hp. destruct mo as [m|]; [simpl; reflexivity|].
  simpl. by apply stops_digit_suffix.
Qed.

Lemma stops_white_space_period p :
  p = str "am" \/ p = str "pm" -> stops is_white_space p.
Proof. by intros [-> | ->]. Qed.

Lemma colon_not_suffix r w p :
  forallb is_white_space w = true -> p = str "am" \/ p = str "pm" ->
  ":"%char :: r <> w ++ p.
Proof.
  intros Hw Hp E. destruct w as [|c w]; simpl in E.
  - by destruct Hp as [-> | ->].
  - injection E as <- _. done.
Qed.

Lemma Grammar12_unique s h mo p h' mo' p' :
  Grammar12 s h mo p -> Grammar12 s h' mo' p' -> h = h' /\ mo = mo' /\ p = p'.
Proof.
  intros (w & -> & Hd & _ & Hm & Hw & Hp) (w' & E & Hd' & _ & Hm' & Hw' & Hp').
  apply (run_unique is_digit) in E as [-> E];
    [|done|done|by apply stops_digit_rest|by apply stops_digit_rest].
  split; [done|].
  assert (mo = mo' /\ w ++ p = w' ++ p') as [-> E'].
  { destruct mo as [m|], mo' as [m'|]; simpl in E.
    - destruct (Hm m eq_refl) as [_ Hl], (Hm' m' eq_refl) as [_ Hl'].
      injection E as E. apply app_inj_1 in E as [-> ->]; [done|congruence].
    - by apply colon_not_suffix in E.
    - symmetry in E. by apply colon_not_suffix in E.
    - done. }
  apply (run_unique is_white_space) in E' as [_ ->];
    [done|done|done|by apply stops_white_space_period..].
Qed.

Definition digit_or_colon (c : ascii) : bool := is_digit c || Ascii.eqb c ":".

Lemma Grammar_disjoint s h m h' mo p :
  Grammar24 s h m -> Grammar12 s h' mo p -> False.
Proof.
  intros (-> & Hd & _ & Hm & _) (w & E & _ & _ & _ & _ & Hp).
  assert (forallb digit_or_colon (h ++ ":"%char :: m) = true) as Hall.
  { rewrite forallb_app. simpl. apply andb_true_intro. split.
    - clear E. induction h as [|c h IH]; [done|]. simpl in *.
      apply andb_prop in Hd as [Hc Hd]. unfold digit_or_colon at 1.
      by rewrite Hc, IH.
    - clear E. induction m as [|c m IH]; [done|]. simpl in *.
      apply andb_prop in Hm as [Hc Hm]. unfold digit_or_colon at 1.
      by rewrite Hc, IH. }
  rewrite E, !forallb_app in Hall.
  repeat (apply andb_prop in Hall as [? Hall]).
  by destruct Hp as [-> | ->].
Qed.

Lemma h24_match_Some s h m : h24_match s = Some (h, m) <-> Grammar24 s h m.
Proof.
  unfold h24_match. split.
  - intros H. by apply elem_h24_matches, head_elem.
  - intros H. apply head_unique; [|by apply elem_h24_matches].
    intros [h' m'] H'. apply elem_h24_matches in H'.
    by destruct (Grammar24_unique _ _ _ _ _ H' H) as [-> ->].
Qed.

Lemma h24_match_None s : h24_match s = None <-> forall h m, ~ Grammar24 s h m.
Proof.
  unfold h24_match. rewrite head_none. split.
  - intros H h m G. by apply (H (h, m)), elem_h24_matches.
  - intros H [h m] G. by apply (H h m), elem_h24_matches.
Qed.

Lemma h12_match_Some s h mo p :
  h12_match s = Some (h, mo, p) <-> Grammar12 s h mo p.
Proof.
  unfold h12_match. split.
  - intros H. by apply elem_h12_matches, head_elem.
  - intros H. apply head_unique; [|by apply elem_h12_matches].
    intros [[h' mo'] p'] H'. apply elem_h12_matches in H'.
    by destruct (Grammar12_unique _ _ _ _ _ _ _ H' H) as (-> & -> & ->).
Qed.

Lemma h12_match_None s :
  h12_match s = None <-> forall h mo p, ~ Grammar12 s h mo p.
Proof.
  unfold h12_match. rewrite head_none. split.
  - intros H h mo p G. by apply (H (h, mo, p)), elem_h12_matches.
  - intros H [[h mo] p] G. by apply (H h mo p), elem_h12_matches.
Qed.

(** *** Numbers and their two-digit text *)

Open Scope Z_scope.

Lemma digit_value_range c : is_digit c = true -> 0 <= digit_value c <= 9.
Proof.
  unfold is_digit, digit_value. intros H. apply andb_prop in H as [H1 H2].
  apply Nat.leb_le in H1, H2. lia.
Qed.

Lemma parseInt_range h :
  forallb is_digit h = true -> (List.length h = 1 \/ List.length h = 2)%nat ->
  0 <= parseInt h <= 99.
Proof.
  intros Hd Hl. destruct h as [|c1 [|c2 [|]]]; simpl in Hl; try lia.
  - simpl in Hd. apply andb_prop in Hd as [H1 _].
    unfold parseInt. simpl. rewrite H1.
    pose proof (digit_value_range _ H1). lia.
  - simpl in Hd. apply andb_prop in Hd as [H1 Hd].
    apply andb_prop in Hd as [H2 _].
    unfold parseInt. simpl. rewrite H1, H2.
    pose proof (digit_value_range _ H1). pose proof (digit_value_range _ H2).
    lia.
Qed.

Lemma below_100 n : 0 <= n <= 99 -> exists k : nat, n = Z.of_nat k /\ (k < 100)%nat.
Proof. intros H. exists (Z.to_nat n). lia. Qed.

Ltac first_100 k :=
  do 100 (destruct k as [|k]; [reflexivity|]); lia.

Lemma padStart_two_digits n :
  0 <= n <= 99 -> padStart 2 "0" (String_ n) = two_digits n.
Proof. intros H. apply below_100 in H as (k & -> & Hk). first_100 k. Qed.

Lemma parseInt_two_digits n : 0 <= n <= 99 -> parseInt (two_digits n) = n.
Proof. intros H. apply below_100 in H as (k & -> & Hk). first_100 k. Qed.

Lemma format_HH_MM hh mm :
  0 <= hh <= 99 -> 0 <= mm <= 99 -> format_hh_mm hh mm = HH_MM hh mm.
Proof.
  intros Hh Hm. unfold format_hh_mm, HH_MM.
  by rewrite !padStart_two_digits.
Qed.

Lemma minutes_value_range mo :
  (forall m, mo = Some m -> forallb is_digit m = true /\ List.length m = 2%nat) ->
  0 <= minutes_value mo <= 99
  /\ (if truthy mo then parseInt (default [] mo) else 0) = minutes_value mo.
Proof.
  intros H. destruct mo as [m|]; simpl; [|lia].
  destruct (H m eq_refl) as [Hd Hl]. split.
  - apply parseInt_range; auto.
  - by destruct m.
Qed.

(** *** What [normalizeTime] returns on each kind of input *)

Section Cases.

Variable input : jsstring.
Let trimmed := toLowerCase (trim input).

Lemma normalizeTime_24 h m :
  Grammar24 trimmed h m ->
  normalizeTime input =
    if bool_decide (in_range_24 (parseInt h) (parseInt m))
    then Return (HH_MM (parseInt h) (parseInt m))
    else Throw "Invalid time".
Proof.
  intros G. unfold normalizeTime. fold trimmed.
  rewrite (proj2 (h24_match_Some _ _ _) G).
  destruct G as (_ & Hd & Hl & Hm & Hlm).
  pose proof (parseInt_range h Hd Hl) as Hh.
  pose proof (parseInt_range m Hm (or_intror Hlm)) as Hmm.
  unfold in_range_24. case_bool_decide as Hr.
  - rewrite format_HH_MM by done.
    replace (parseInt h <? 0) with false by lia.
    replace (parseInt h >? 23) with false by lia.
    replace (parseInt m <? 0) with false by lia.
    replace (parseInt m >? 59) with false by lia. done.
  - destruct (parseInt h >? 23) eqn:E1; [by rewrite orb_true_r|].
    destruct (parseInt m >? 59) eqn:E2; [by rewrite orb_true_r|]. lia.
Qed.

Lemma normalizeTime_12 h mo p :
  Grammar12 trimmed h mo p ->
  normalizeTime input =
    if bool_decide (in_range_12 (parseInt h) (minutes_value mo))
    then Return (HH_MM (hour24 (parseInt h) p) (minutes_value mo))
    else Throw "Invalid time".
Proof.
  intros G. unfold normalizeTime. fold trimmed.
  assert (h24_match trimmed = None) as ->.
  { apply h24_match_None. intros h' m' G'. apply (Grammar_disjoint _ _ _ _ _ _ G' G). }
  rewrite (proj2 (h12_match_Some _ _ _ _) G).
  destruct G as (w & _ & Hd & Hl & Hm & _ & Hp).
  pose proof (parseInt_range h Hd Hl) as Hh.
  destruct (minutes_value_range mo Hm) as [Hmm ->].
  unfold in_range_12.
  destruct (decide (1 <= parseInt h <= 12 /\ 0 <= minutes_value mo <= 59)) as [Hr|Hr];
    [rewrite (bool_decide_eq_true_2 _ Hr)|rewrite (bool_decide_eq_false_2 _ Hr)].
  - replace (parseInt h <? 1) with false by lia.
    replace (parseInt h >? 12) with false by lia.
    replace (minutes_value mo <? 0) with false by lia.
    replace (minutes_value mo >? 59) with false by lia.
    cbn [orb]. unfold hour24.
    destruct Hp as [-> | ->].
    + rewrite (bool_decide_eq_false_2 (str "am" = str "pm")) by done.
      rewrite (bool_decide_eq_true_2 (str "am" = str "am")) by done.
      cbn [andb]. case_bool_decide as E.
      * rewrite E. simpl. by rewrite format_HH_MM.
      * replace (parseInt h =? 12) with false by lia.
        rewrite format_HH_MM by lia. done.
    + rewrite (bool_decide_eq_true_2 (str "pm" = str "pm")) by done.
      rewrite (bool_decide_eq_false_2 (str "pm" = str "am")) by done.
      cbn [andb]. case_bool_decide as E.
      * rewrite E. simpl. by rewrite format_HH_MM.
      * replace (parseInt h =? 12) with false by lia. cbn [negb].
        rewrite format_HH_MM by lia. done.
  - destruct (parseInt h <? 1) eqn:E0; [done|].
    destruct (parseInt h >? 12) eqn:E1; [done|].
    destruct (minutes_value mo >? 59) eqn:E2; [by rewrite orb_true_r|]. lia.
Qed.

Lemma normalizeTime_unrecognized :
  (forall h m, ~ Grammar24 trimmed h m) ->
  (forall h mo p, ~ Grammar12 trimmed h mo p) ->
  normalizeTime input = Throw "Unrecognized time format".
Proof.
  intros H24 H12. unfold normalizeTime. fold trimmed.
  by rewrite (proj2 (h24_match_None _) H24), (proj2 (h12_match_None _) H12).
Qed.

(** Every input is of exactly one of the three kinds. *)
Lemma input_kind :
  (exists h m, Grammar24 trimmed h m)
  \/ (exists h mo p, Grammar12 trimmed h mo p)
  \/ ((forall h m, ~ Grammar24 trimmed h m)
      /\ (forall h mo p, ~ Grammar12 trimmed h mo p)).
Proof.
  destruct (h24_match trimmed) as [[h m]|] eqn:E24.
  { left. exists h, m. by apply h24_match_Some. }
  destruct (h12_match trimmed) as [[[h mo] p]|] eqn:E12.
  { right. left. exists h, mo, p. by apply h12_match_Some. }
  right. right. split; [by apply h24_match_None|by apply h12_match_None].
Qed.

End Cases.

Lemma hour24_range hh p : 1 <= hh <= 12 -> 0 <= hour24 hh p <= 23.
Proof. intros H. unfold hour24. repeat case_bool_decide; lia. Qed.

Lemma normalizeTime_Return input out :
  normalizeTime input = Return out <->
    (exists h m, Grammar24 (toLowerCase (trim input)) h m
       /\ in_range_24 (parseInt h) (parseInt m)
       /\ out = HH_MM (parseInt h) (parseInt m))
    \/ (exists h mo p, Grammar12 (toLowerCase (trim input)) h mo p
       /\ in_range_12 (parseInt h) (minutes_value mo)
       /\ out = HH_MM (hour24 (parseInt h) p) (minutes_value mo)).
Proof.
  split.
  - intros H. destruct (input_kind input) as [(h & m & G)|[(h & mo & p & G)|[N1 N2]]].
    + rewrite (normalizeTime_24 _ _ _ G) in H. case_bool_decide; [|done].
      injection H as <-. left. eauto.
    + rewrite (normalizeTime_12 _ _ _ _ G) in H. case_bool_decide; [|done].
      injection H as <-. right. eauto 6.
    + by rewrite normalizeTime_unrecognized in H.
  - intros [(h & m & G & R & ->)|(h & mo & p & G & R & ->)].
    + rewrite (normalizeTime_24 _ _ _ G). by rewrite bool_decide_eq_true_2.
    + rewrite (normalizeTime_12 _ _ _ _ G). by rewrite bool_decide_eq_true_2.
Qed.

(** C2.  [normalizeTime] returns a value exactly on the two kinds of input
    below, and the value is the canonical zero-padded [HH:MM]:
    - a 24-hour text [H:MM] or [HH:MM] with hour at most 23 and minute at most
      59 gives the two-digit hour and minute of the same values;
    - a 12-hour text [H[:MM]] followed by [am] or [pm] (read after trimming and
      lower-casing, so the meridiem is case-insensitive) with hour in 1..12 and
      minute at most 59 (0 when left out) gives its 24-hour equivalent
      [hour24]: 12am is hour 0 and 12pm is hour 12.
    Every returned text is [HH:MM] with [HH] in 0..23 and [MM] in 0..59, and
    reading the two digits back gives those numbers. *)
Theorem normalizeTime_accepts :
  (forall input out : jsstring,
     normalizeTime input = Return out <->
       (exists h m, Grammar24 (toLowerCase (trim input)) h m
          /\ in_range_24 (parseInt h) (parseInt m)
          /\ out = HH_MM (parseInt h) (parseInt m))
       \/ (exists h mo p, Grammar12 (toLowerCase (trim input)) h mo p
          /\ in_range_12 (parseInt h) (minutes_value mo)
          /\ out = HH_MM (hour24 (parseInt h) p) (minutes_value mo)))
  /\ (forall input out : jsstring,
        normalizeTime input = Return out ->
        exists hh mm, 0 <= hh <= 23 /\ 0 <= mm <= 59 /\ out = HH_MM hh mm
          /\ parseInt (two_digits hh) = hh /\ parseInt (two_digits mm) = mm)
  /\ hour24 12 (str "am") = 0 /\ hour24 12 (str "pm") = 12
  /\ normalizeTime (str "12am") = Return (str "00:00")
  /\ normalizeTime (str "12pm") = Return (str "12:00")
  /\ normalizeTime (str "2:30 pm") = Return (str "14:30")
  /\ normalizeTime (str "2:05") = Return (str "02:05")
  /\ normalizeTime (str "23:59") = Return (str "23:59")
  /\ normalizeTime (str " 2 PM ") = Return (str "14:00").
Proof.
  split; [apply normalizeTime_Return|].
  split; [|by vm_compute].
  intros input out H. apply normalizeTime_Return in H
    as [(h & m & G & [R1 R2] & ->)|(h & mo & p & G & [R1 R2] & ->)].
  - destruct G as (_ & Hd & Hl & Hm & Hlm).
    pose proof (parseInt_range h Hd Hl).
    pose proof (parseInt_range m Hm (or_intror Hlm)).
    exists (parseInt h), (parseInt m).
    rewrite !parseInt_two_digits by lia. repeat split; lia.
  - destruct G as (w & _ & Hd & Hl & Hm & _ & Hp).
    destruct (minutes_value_range mo Hm) as [Hmm _].
    pose proof (hour24_range (parseInt h) p R1).
    exists (hour24 (parseInt h) p), (minutes_value mo).
    rewrite !parseInt_two_digits by lia. repeat split; lia.
Qed.

(** "2:30 pm" is accepted as "14:30", hour 14 and minute 30. *)
Lemma normalizeTime_accepts_witness :
  exists hh mm, 0 <= hh <= 23 /\ 0 <= mm <= 59 /\ str "14:30" = HH_MM hh mm
    /\ parseInt (two_digits hh) = hh /\ parseInt (two_digits mm) = mm.
Proof.
  destruct normalizeTime_accepts as (_ & H & _).
  apply (H (str "2:30 pm")). reflexivity.
Defined.

Lemma normalizeTime_Invalid input :
  normalizeTime input = Throw "Invalid time" <->
    (exists h m, Grammar24 (toLowerCase (trim input)) h m
       /\ ~ in_range_24 (parseInt h) (parseInt m))
    \/ (exists h mo p, Grammar12 (toLowerCase (trim input)) h mo p
       /\ ~ in_range_12 (parseInt h) (minutes_value mo)).
Proof.
  split.
  - intros H. destruct (input_kind input) as [(h & m & G)|[(h & mo & p & G)|[N1 N2]]].
    + rewrite (normalizeTime_24 _ _ _ G) in H. case_bool_decide; [done|].
      left. eauto.
    + rewrite (normalizeTime_12 _ _ _ _ G) in H. case_bool_decide; [done|].
      right. eauto 6.
    + by rewrite normalizeTime_unrecognized in H.
  - intros [(h & m & G & R)|(h & mo & p & G & R)].
    + rewrite (normalizeTime_24 _ _ _ G). by rewrite bool_decide_eq_false_2.
    + rewrite (normalizeTime_12 _ _ _ _ G). by rewrite bool_decide_eq_false_2.
Qed.

Lemma normalizeTime_Unrecognized input :
  normalizeTime input = Throw "Unrecognized time format" <->
    (forall h m, ~ Grammar24 (toLowerCase (trim input)) h m)
    /\ (forall h mo p, ~ Grammar12 (toLowerCase (trim input)) h mo p).
Proof.
  split.
  - intros H. destruct (input_kind input) as [(h & m & G)|[(h & mo & p & G)|N]].
    + rewrite (normalizeTime_24 _ _ _ G) in H. by case_bool_decide.
    + rewrite (normalizeTime_12 _ _ _ _ G) in H. by case_bool_decide.
    + done.
  - intros [N1 N2]. by apply normalizeTime_unrecognized.
Qed.

(** C3.  [normalizeTime] throws "Invalid time" exactly when the trimmed,
    lower-cased input reads in one of the two grammars with its hour or
    minute out of that grammar's range, and throws "Unrecognized time format"
    exactly when it reads in neither grammar; it completes in no other way.
    "25:00", "24:00" and "13:00 pm" are invalid times; a text with seconds or
    with fractional minutes is not recognized. *)
Theorem normalizeTime_rejects :
  (forall input : jsstring,
     normalizeTime input = Throw "Invalid time" <->
       (exists h m, Grammar24 (toLowerCase (trim input)) h m
          /\ ~ in_range_24 (parseInt h) (parseInt m))
       \/ (exists h mo p, Grammar12 (toLowerCase (trim input)) h mo p
          /\ ~ in_range_12 (parseInt h) (minutes_value mo)))
  /\ (forall input : jsstring,
        normalizeTime input = Throw "Unrecognized time format" <->
          (forall h m, ~ Grammar24 (toLowerCase (trim input)) h m)
          /\ (forall h mo p, ~ Grammar12 (toLowerCase (trim input)) h mo p))
  /\ (forall input : jsstring,
        (exists out, normalizeTime input = Return out)
        \/ normalizeTime input = Throw "Invalid time"
        \/ normalizeTime input = Throw "Unrecognized time format")
  /\ normalizeTime (str "25:00") = Throw "Invalid time"
  /\ normalizeTime (str "13:00 pm") = Throw "Invalid time"
  /\ normalizeTime (str "24:00") = Throw "Invalid time"
  /\ normalizeTime (str "0:30 am") = Throw "Invalid time"
  /\ normalizeTime (str "12:60") = Throw "Invalid time"
  /\ normalizeTime (str "12:30:45") = Throw "Unrecognized time format"
  /\ normalizeTime (str "12:30.5") = Throw "Unrecognized time format"
  /\ normalizeTime (str "noon") = Throw "Unrecognized time format"
  /\ normalizeTime [] = Throw "Unrecognized time format".
Proof.
  split; [apply normalizeTime_Invalid|].
  split; [apply normalizeTime_Unrecognized|].
  split; [|by vm_compute].
  intros input.
  destruct (input_kind input) as [(h & m & G)|[(h & mo & p & G)|[N1 N2]]].
  - rewrite (normalizeTime_24 _ _ _ G). case_bool_decide; eauto.
  - rewrite (normalizeTime_12 _ _ _ _ G). case_bool_decide; eauto.
  - right. right. by apply normalizeTime_unrecognized.
Qed.

Close Scope Z_scope.

End TimeNormalizer.

(** ** EventValidator: the Event schema's pre-save hook *)

Module EventModel.

Import Slug TimeNormalizer.

(** [EventDocument].  [slug] is [None] while the path is unset on the document
    (a new Event built without a slug); the timestamps are in milliseconds. *)
Record EventDocument : Type := {
  title : jsstring;
  slug : option jsstring;
  description : jsstring;
  overview : jsstring;
  image : jsstring;
  venue : jsstring;
  location : jsstring;
  date : jsstring;
  time : jsstring;
  mode : jsstring;
  audience : jsstring;
  agenda : list jsstring;
  organizer : jsstring;
  tags : list jsstring;
  createdAt : Z;
  updatedAt : Z
}.

(** The assignments [this.slug = v], [this.date = v] and [this.time = v]. *)
Definition set_slug (v : option jsstring) (d : EventDocument) : EventDocument :=
  {| title := title d; slug := v; description := description d;
     overview := overview d; image := image d; venue := venue d;
     location := location d; date := date d; time := time d; mode := mode d;
     audience := audience d; agenda := agenda d; organizer := organizer d;
     tags := tags d; createdAt := createdAt d; updatedAt := updatedAt d |}.

Definition set_date (v : jsstring) (d : EventDocument) : EventDocument :=
  {| title := title d; slug := slug d; description := description d;
     overview := overview d; image := image d; venue := venue d;
     location := location d; date := v; time := time d; mode := mode d;
     audience := audience d; agenda := agenda d; organizer := organizer d;
     tags := tags d; createdAt := createdAt d; updatedAt := updatedAt d |}.

Definition set_time (v : jsstring) (d : EventDocument) : EventDocument :=
  {| title := title d; slug := slug d; description := description d;
     overview := overview d; image := image d; venue := venue d;
     location := location d; date := date d; time := v; mode := mode d;
     audience := audience d; agenda := agenda d; organizer := organizer d;
     tags := tags d; createdAt := createdAt d; updatedAt := updatedAt d |}.

(** [!this.slug]: an unset slug and the empty string are falsy. *)
Definition slug_unset (d : EventDocument) : bool :=
  match slug d with Some (_ :: _) => false | _ => true end.

Section PreSave.

(** [this.isModified(path)], Mongoose's record of the paths changed in this
    write. *)
Variable isModified : string -> bool.

(** [new Date(text)] followed by [toISOString()]: [None] when [getTime()] is
    NaN.  Date parsing belongs to the JavaScript runtime. *)
Variable Date_toISOString : jsstring -> option jsstring.

(** Lines 193-195: generate the slug if the title changed or the slug is not
    set. *)
Definition refresh_slug (this : EventDocument) : EventDocument :=
  if isModified "title" || slug_unset this
  then set_slug (Some (slugify (title this))) this
  else this.

(** The hook: the document as the hook leaves it, and the error handed to
    [next] ([None] for a plain [next()]).  A throw leaves the assignments made
    before it on the document. *)
Definition pre_save (this : EventDocument) : EventDocument * option string :=
  let this := refresh_slug this in
  match Date_toISOString (date this) with
  | None => (this, Some "Invalid date"%string)
  | Some iso =>
      let this := set_date iso this in
      match normalizeTime (time this) with
      | Throw message => (this, Some message)
      | Return t => (set_time t this, None)
      end
  end.

End PreSave.

(** *** The slug step *)

Lemma refresh_slug_slug isModified this :
  slug (refresh_slug isModified this) =
    if isModified "title"%string || slug_unset this
    then Some (slugify (title this))
    else slug this.
Proof. unfold refresh_slug. by destruct (_ || _). Qed.

Lemma refresh_slug_frame isModified this :
  refresh_slug isModified this =
    set_slug (slug (refresh_slug isModified this)) this.
Proof. unfold refresh_slug. destruct (_ || _); by destruct this. Qed.

Lemma pre_save_frame isModified toISO this :
  let this' := fst (pre_save isModified toISO this) in
  this' = set_time (time this') (set_date (date this') (set_slug (slug this') this)).
Proof.
  unfold pre_save. set (d := refresh_slug isModified this).
  assert (d = set_slug (slug d) this) as Hd by apply refresh_slug_frame.
  clearbody d.
  destruct (toISO (date d)) as [iso|]; simpl.
  - destruct (normalizeTime _); simpl;
      destruct this, d; simpl in *; by injection Hd as -> -> -> -> -> -> -> -> -> -> -> -> -> -> ->.
  - destruct this, d; simpl in *;
      by injection Hd as -> -> -> -> -> -> -> -> -> -> -> -> -> -> ->.
Qed.

Lemma pre_save_slug isModified toISO this :
  slug (fst (pre_save isModified toISO this)) = slug (refresh_slug isModified this).
Proof.
  unfold pre_save. destruct (toISO _); [|done].
  simpl. by destruct (normalizeTime _).
Qed.

(** A new Event titled "My Talk" with no slug, and a later write that changes
    only the description of an Event whose slug differs from what its title
    would give. *)
Definition my_talk : EventDocument :=
  {| title := str "My Talk"; slug := None; description := str "A talk";
     overview := str "Overview"; image := str "talk.png"; venue := str "Hall";
     location := str "Lisbon"; date := str "2026-03-01"; time := str "2:30 pm";
     mode := str "offline"; audience := str "everyone"; agenda := [str "Intro"];
     organizer := str "Chris"; tags := [str "talk"]; createdAt := 0; updatedAt := 0 |}.

Definition renamed_talk : EventDocument :=
  set_slug (Some (str "old-slug")) my_talk.

Definition only_description (path : string) : bool := String.eqb path "description".

Definition new_document (path : string) : bool := true.

Definition any_date (text : jsstring) : option jsstring := Some text.

(** C5.  The pre-save hook leaves the slug equal to [slugify(title)] when the
    title was modified in this write or the slug is unset (absent or empty),
    and equal to its previous value otherwise; the slug step changes no other
    field, and the whole hook changes none besides [slug], [date] and [time].
    A new "My Talk" gets the slug "my-talk"; a write that modifies only the
    description keeps the old slug although the title would give another. *)
Theorem pre_save_slug_rule :
  (forall (isModified : string -> bool) (toISO : jsstring -> option jsstring)
          (this : EventDocument),
     let this' := fst (pre_save isModified toISO this) in
     slug this' =
       (if isModified "title"%string || slug_unset this
        then Some (slugify (title this))
        else slug this)
     /\ refresh_slug isModified this =
          set_slug (slug (refresh_slug isModified this)) this
     /\ this' = set_time (time this') (set_date (date this') (set_slug (slug this') this)))
  /\ slug (fst (pre_save new_document any_date my_talk)) = Some (str "my-talk")
  /\ slug (fst (pre_save only_description any_date renamed_talk)) = Some (str "old-slug")
  /\ slugify (title renamed_talk) = str "my-talk".
Proof.
  split; [|by vm_compute].
  intros isModified toISO this this'. split; [|split].
  - subst this'. by rewrite pre_save_slug, refresh_slug_slug.
  - apply refresh_slug_frame.
  - apply pre_save_frame.
Qed.

End EventModel.

(** ** BookingValidator: the Booking schema and its pre-save hook *)

Module BookingModel.

Import Regex TimeNormalizer.

Definition ObjectId : Type := N.

(** [BookingDocument] ([_id] is the document's own identifier). *)
Record BookingDocument : Type := {
  _id : ObjectId;
  eventId : ObjectId;
  email : jsstring
}.

(** The class [[^\s@]]. *)
Definition not_space_at (c : ascii) : bool :=
  negb (is_white_space c) && negb (Ascii.eqb c "@").

(** [EMAIL_RE = /^[^\s@]+@[^\s@]+\.[^\s@]+$/]: the successful runs of the
    matcher ([.] belongs to [[^\s@]], so the second [+] may have to give
    characters back). *)
Definition EMAIL_RE_matches (s : jsstring) : list unit :=
  '(_, r1) ← plus not_space_at s;
  '(_, r2) ← lit "@" r1;
  '(_, r3) ← plus not_space_at r2;
  '(_, r4) ← lit "." r3;
  '(_, r5) ← plus not_space_at r4;
  '(_, _) ← eof r5;
  [()].

(** [EMAIL_RE.test(v)]. *)
Definition EMAIL_RE_test (v : jsstring) : bool :=
  match EMAIL_RE_matches v with [] => false | _ :: _ => true end.

(** The setters of the [email] path ([trim: true], [lowercase: true]), run
    when a value is assigned to the path.  The two commute
    ([trim_toLowerCase] below), so the order Mongoose runs them in does not
    matter. *)
Definition email_setter (v : jsstring) : jsstring := trim (toLowerCase v).

(** The fields given to [new Booking({...})]; a field may be left out. *)
Record BookingInput : Type := {
  input_eventId : option ObjectId;
  input_email : option jsstring
}.

(** Validation of the two paths, run by [save] before the pre-save hooks:
    the [required] validators, and the [email] validator on the value the
    setters stored (a [required] string must be non-empty).  The result is the
    validated document, or the message of a validator that failed, [eventId]
    looked at first. *)
Definition validate (oid : ObjectId) (input : BookingInput) : Completion BookingDocument :=
  match input_eventId input with
  | None => Throw "eventId is required"
  | Some eid =>
      match input_email input with
      | None => Throw "Email is required"
      | Some raw =>
          let v := email_setter raw in
          match v with
          | [] => Throw "Email is required"
          | _ :: _ =>
              if EMAIL_RE_test v
              then Return {| _id := oid; eventId := eid; email := v |}
              else Throw "Invalid email address"
          end
      end
  end.

(** The collections, and whether the database can be reached: [fault] holds
    the error a query fails with (also the error of [mongoose.model('Event')]
    when the Event model is not registered). *)
Record Database : Type := {
  Events : gset ObjectId;
  Bookings : gmap ObjectId BookingDocument;
  fault : option string
}.

(** [await Event.exists({ _id: id })], as a truth value. *)
Definition Event_exists (db : Database) (id : ObjectId) : Completion bool :=
  match fault db with
  | Some message => Throw message
  | None => Return (bool_decide (id ∈ Events db))
  end.

(** The pre-save hook: the error handed to [next], [None] for [next()]. *)
Definition pre_save (db : Database) (this : BookingDocument) : option string :=
  match Event_exists db (eventId this) with
  | Return exists_ =>
      if negb exists_ then Some "Referenced Event does not exist"%string
      else None
  | Throw message => Some message
  end.

Definition store (doc : BookingDocument) (db : Database) : Database :=
  {| Events := Events db;
     Bookings := <[_id doc := doc]> (Bookings db);
     fault := fault db |}.

(** [new Booking(input).save()], or [save()] after assigning the fields of an
    existing Booking [oid]: validation, the pre-save hook, then the write. *)
Definition save (db : Database) (oid : ObjectId) (input : BookingInput)
    : Database * Completion BookingDocument :=
  match validate oid input with
  | Throw message => (db, Throw message)
  | Return doc =>
      match pre_save db doc with
      | Some message => (db, Throw message)
      | None => (store doc db, Return doc)
      end
  end.

(** [local@domain.tld]-shaped text: three non-empty parts without white
    space or [@], joined by [@] and [.]. *)
Definition EmailShape (s : jsstring) : Prop :=
  exists l d t,
    s = l ++ "@"%char :: d ++ "."%char :: t
    /\ l <> [] /\ d <> [] /\ t <> []
    /\ forallb not_space_at l = true
    /\ forallb not_space_at d = true
    /\ forallb not_space_at t = true.

(** *** The address pattern *)

Lemma EMAIL_RE_matches_shape s : () ∈ EMAIL_RE_matches s <-> EmailShape s.
Proof.
  unfold EMAIL_RE_matches, EmailShape. split.
  - intros H.
    apply elem_bind_pair in H as (l & r1 & H1 & H).
    apply elem_bind_pair in H as (x & r2 & H2 & H).
    apply elem_bind_pair in H as (d & r3 & H3 & H).
    apply elem_bind_pair in H as (y & r4 & H4 & H).
    apply elem_bind_pair in H as (t & r5 & H5 & H).
    apply elem_bind_pair in H as (z & z' & H6 & _).
    apply elem_plus in H1 as (-> & Hl & Hnl).
    apply elem_lit in H2 as [-> ->].
    apply elem_plus in H3 as (-> & Hd & Hnd).
    apply elem_lit in H4 as [-> ->].
    apply elem_plus in H5 as (-> & Ht & Hnt).
    apply elem_eof in H6 as (-> & -> & ->).
    exists l, d, t. by rewrite app_nil_r.
  - intros (l & d & t & -> & Hnl & Hnd & Hnt & Hl & Hd & Ht).
    apply elem_bind_pair. exists l, ("@"%char :: d ++ "."%char :: t).
    split; [by apply elem_plus|].
    apply elem_bind_pair. exists ["@"%char], (d ++ "."%char :: t).
    split; [by apply elem_lit|].
    apply elem_bind_pair. exists d, ("."%char :: t).
    split; [by apply elem_plus|].
    apply elem_bind_pair. exists ["."%char], t.
    split; [by apply elem_lit|].
    apply elem_bind_pair. exists t, [].
    split; [apply elem_plus; by rewrite app_nil_r|].
    apply elem_bind_pair. exists [], [].
    split; [by apply elem_eof|]. by apply list_elem_of_singleton.
Qed.

Lemma EMAIL_RE_test_shape s : EMAIL_RE_test s = true <-> EmailShape s.
Proof.
  rewrite <- EMAIL_RE_matches_shape. unfold EMAIL_RE_test.
  destruct (EMAIL_RE_matches s) as [|[] l].
  - split; [done|]. intros H. by apply elem_of_nil in H.
  - split; [|done]. intros _. by left.
Qed.

Lemma not_space_at_no_space s :
  forallb not_space_at s = true -> forallb (fun c => negb (is_white_space c)) s = true.
Proof.
  induction s as [|c s IH]; [done|]. simpl. intros H.
  apply andb_prop in H as [Hc Hs]. unfold not_space_at in Hc.
  apply andb_prop in Hc as [Hc _]. by rewrite Hc, IH.
Qed.

Lemma EmailShape_no_space s :
  EmailShape s -> forallb (fun c => negb (is_white_space c)) s = true.
Proof.
  intros (l & d & t & -> & _ & _ & _ & Hl & Hd & Ht).
  rewrite forallb_app. simpl. rewrite forallb_app. simpl.
  by rewrite !not_space_at_no_space.
Qed.

(** *** The setters commute *)

Lemma white_space_lower_char c : is_white_space (lower_char c) = is_white_space c.
Proof. Slug.ascii_cases c. Qed.

Lemma forallb_white_space_lower s :
  forallb is_white_space (toLowerCase s) = forallb is_white_space s.
Proof.
  induction s as [|c s IH]; [done|]. simpl.
  by rewrite white_space_lower_char, IH.
Qed.

Lemma trim_toLowerCase s : trim (toLowerCase s) = toLowerCase (trim s).
Proof.
  unfold trim, trimStart, trimEnd.
  assert (dropWhile is_white_space (toLowerCase s)
          = toLowerCase (dropWhile is_white_space s)) as ->.
  { induction s as [|c s IH]; [done|]. simpl.
    rewrite white_space_lower_char. by destruct (is_white_space c). }
  generalize (dropWhile is_white_space s). intros u.
  induction u as [|c u IH]; [done|].
  cbn [dropWhileEnd toLowerCase map].
  change (lower_char c :: map lower_char u) with (toLowerCase (c :: u)).
  rewrite forallb_white_space_lower.
  destruct (forallb is_white_space (c :: u)); [done|].
  simpl. f_equal. apply IH.
Qed.

(** *** Saving a Booking *)

Lemma pre_save_None db this : pre_save db this = None -> eventId this ∈ Events db.
Proof.
  unfold pre_save, Event_exists. destruct (fault db); [done|].
  case_bool_decide; [done|]. done.
Qed.

Lemma pre_save_missing db this :
  fault db = None ->
  (pre_save db this = Some "Referenced Event does not exist"%string
   <-> eventId this ∉ Events db).
Proof.
  unfold pre_save, Event_exists. intros ->. by case_bool_decide.
Qed.

Lemma validate_eventId oid input doc :
  validate oid input = Return doc ->
  input_eventId input = Some (eventId doc) /\ _id doc = oid
  /\ exists raw, input_email input = Some raw /\ email doc = email_setter raw
       /\ EMAIL_RE_test (email_setter raw) = true.
Proof.
  unfold validate. destruct (input_eventId input) as [eid|]; [|done].
  destruct (input_email input) as [raw|]; [|done].
  destruct (email_setter raw) as [|c v] eqn:E; [done|].
  destruct (EMAIL_RE_test (c :: v)) eqn:T; [|done].
  intros [= <-]. simpl. split; [done|]. split; [done|].
  exists raw. by rewrite E.
Qed.

Lemma save_Return db oid input db' doc :
  save db oid input = (db', Return doc) ->
  validate oid input = Return doc /\ pre_save db doc = None /\ db' = store doc db.
Proof.
  unfold save. destruct (validate oid input) as [d|]; [|done].
  destruct (pre_save db d) eqn:E; [done|]. by intros [= <- <-].
Qed.

Lemma save_rejected_unchanged db oid input db' message :
  save db oid input = (db', Throw message) -> db' = db.
Proof.
  unfold save. destruct (validate oid input) as [d|]; [|by intros [= <- _]].
  destruct (pre_save db d); [by intros [= <- _]|done].
Qed.

(** Two databases, one without Events and one holding Event 7, and the
    Booking of the specification. *)
Definition no_events : Database :=
  {| Events := ∅; Bookings := ∅; fault := None |}.

Definition one_event : Database :=
  {| Events := {[ 7%N ]}; Bookings := ∅; fault := None |}.

Definition user_booking : BookingInput :=
  {| input_eventId := Some 7%N; input_email := Some (str "User@Example.COM") |}.

Definition stored_booking : BookingDocument :=
  {| _id := 1%N; eventId := 7%N; email := str "user@example.com" |}.

(** C6.  A Booking is written only if an Event with the Booking's [eventId]
    exists when [save] runs.  When the hook's lookup finds none, the hook
    fails with "Referenced Event does not exist"; a [save] whose [eventId]
    names no Event is rejected and leaves the database as it was. *)
Theorem booking_requires_event :
  (forall (db : Database) (oid : ObjectId) (input : BookingInput),
     (forall db' doc, save db oid input = (db', Return doc) ->
        eventId doc ∈ Events db /\ input_eventId input = Some (eventId doc)
        /\ db' = store doc db)
     /\ (forall doc, validate oid input = Return doc -> fault db = None ->
           eventId doc ∉ Events db ->
           save db oid input = (db, Throw "Referenced Event does not exist"))
     /\ (forall eid, input_eventId input = Some eid -> eid ∉ Events db ->
           exists message, save db oid input = (db, Throw message)))
  /\ (forall (db : Database) (this : BookingDocument),
        fault db = None ->
        (pre_save db this = Some "Referenced Event does not exist"%string
         <-> eventId this ∉ Events db))
  /\ (forall (db : Database) (this : BookingDocument),
        pre_save db this = None -> eventId this ∈ Events db)
  /\ save no_events 1%N user_booking
       = (no_events, Throw "Referenced Event does not exist")
  /\ snd (save one_event 1%N user_booking) = Return stored_booking
  /\ Bookings (fst (save one_event 1%N user_booking)) !! 1%N = Some stored_booking
  /\ Bookings (fst (save no_events 1%N user_booking)) !! 1%N = None.
Proof.
  split; [|split; [apply pre_save_missing|split; [apply pre_save_None|by vm_compute]]].
  intros db oid input. split; [|split].
  - intros db' doc H. apply save_Return in H as (Hv & Hp & ->).
    apply validate_eventId in Hv as (He & _). apply pre_save_None in Hp. done.
  - intros doc Hv Hf Hn. unfold save. rewrite Hv.
    by rewrite (proj2 (pre_save_missing db doc Hf) Hn).
  - intros eid He Hn. unfold save.
    destruct (validate oid input) as [doc|message] eqn:Hv; [|eauto].
    destruct (pre_save db doc) as [message|] eqn:Hp; [eauto|].
    apply pre_save_None in Hp. apply validate_eventId in Hv as (He' & _).
    congruence.
Qed.

(** The Booking of Event 7 is rejected while there is no Event, and Event 7
    is there when it is written. *)
Lemma booking_requires_event_witness :
  (exists message, save no_events 1%N user_booking = (no_events, Throw message))
  /\ eventId stored_booking ∈ Events one_event
  /\ save no_events 1%N user_booking
       = (no_events, Throw "Referenced Event does not exist").
Proof.
  destruct booking_requires_event as (H & _).
  destruct (H no_events 1%N user_booking) as (_ & H2 & H3).
  destruct (H one_event 1%N user_booking) as (H1 & _ & _).
  split; [|split].
  - apply (H3 7%N); [reflexivity|]. apply not_elem_of_empty.
  - apply (H1 (store stored_booking one_event) stored_booking). reflexivity.
  - apply (H2 stored_booking); [reflexivity|reflexivity|].
    apply not_elem_of_empty.
Defined.

(** C7.  The stored email is the given text trimmed and lower-cased (in
    either order).  Validation accepts it exactly when it is
    [local@domain.tld]-shaped, which leaves no white space in it; a Booking is
    written only with such an email, and a Booking whose email fails the check
    is rejected and the database is left as it was.  "User@Example.COM" is
    accepted and stored as "user@example.com". *)
Theorem booking_email_rule :
  (forall raw : jsstring,
     email_setter raw = toLowerCase (trim raw)
     /\ email_setter raw = trim (toLowerCase raw)
     /\ (EMAIL_RE_test (email_setter raw) = true <-> EmailShape (email_setter raw))
     /\ (EmailShape (email_setter raw) ->
           forallb (fun c => negb (is_white_space c)) (email_setter raw) = true))
  /\ (forall (oid eid : ObjectId) (raw : jsstring),
        let input := {| input_eventId := Some eid; input_email := Some raw |} in
        let doc := {| _id := oid; eventId := eid; email := toLowerCase (trim raw) |} in
        (EmailShape (toLowerCase (trim raw)) <-> validate oid input = Return doc)
        /\ (~ EmailShape (toLowerCase (trim raw)) <->
              exists message, validate oid input = Throw message)
        /\ (toLowerCase (trim raw) <> [] -> ~ EmailShape (toLowerCase (trim raw)) ->
              validate oid input = Throw "Invalid email address"))
  /\ (forall (db : Database) (oid eid : ObjectId) (raw : jsstring),
        let input := {| input_eventId := Some eid; input_email := Some raw |} in
        (forall db' doc, save db oid input = (db', Return doc) ->
           email doc = toLowerCase (trim raw) /\ EmailShape (email doc)
           /\ Bookings db' !! oid = Some doc)
        /\ (~ EmailShape (toLowerCase (trim raw)) ->
              exists message, save db oid input = (db, Throw message)))
  /\ EMAIL_RE_test (email_setter (str "User@Example.COM")) = true
  /\ snd (save one_event 1%N user_booking) = Return stored_booking
  /\ Bookings (fst (save one_event 1%N user_booking)) !! 1%N = Some stored_booking
  /\ save one_event 1%N {| input_eventId := Some 7%N; input_email := Some (str "user example@x.com") |}
       = (one_event, Throw "Invalid email address")
  /\ save one_event 1%N {| input_eventId := Some 7%N; input_email := Some (str "user@example") |}
       = (one_event, Throw "Invalid email address").
Proof.
  assert (forall oid eid raw,
    let input := {| input_eventId := Some eid; input_email := Some raw |} in
    let doc := {| _id := oid; eventId := eid; email := toLowerCase (trim raw) |} in
    (EmailShape (toLowerCase (trim raw)) -> validate oid input = Return doc)
    /\ (~ EmailShape (toLowerCase (trim raw)) ->
          exists message, validate oid input = Throw message)
    /\ (toLowerCase (trim raw) <> [] -> ~ EmailShape (toLowerCase (trim raw)) ->
          validate oid input = Throw "Invalid email address")) as Hval.
  { intros oid eid raw input doc. subst input doc. unfold validate. simpl.
    unfold email_setter. rewrite trim_toLowerCase.
    destruct (toLowerCase (trim raw)) as [|c v] eqn:E.
    - split; [|split; [eauto|done]].
      intros (l & d & t & H & _). by destruct l.
    - destruct (EMAIL_RE_test (c :: v)) eqn:T.
      + apply EMAIL_RE_test_shape in T. split; [done|]. split; done.
      + assert (~ EmailShape (c :: v)) as Hn.
        { intros H. apply EMAIL_RE_test_shape in H. congruence. }
        split; [done|]. split; eauto. }
  split; [|split; [|split; [|by vm_compute]]].
  - intros raw. unfold email_setter. rewrite trim_toLowerCase.
    split; [done|]. split; [done|].
    split; [apply EMAIL_RE_test_shape|apply EmailShape_no_space].
  - intros oid eid raw input doc.
    destruct (Hval oid eid raw) as (H1 & H2 & H3). fold input doc in H1, H2, H3.
    split; [|split; [|done]].
    + split; [done|]. intros Hv.
      destruct (EMAIL_RE_test (toLowerCase (trim raw))) eqn:T;
        [by apply EMAIL_RE_test_shape|].
      assert (~ EmailShape (toLowerCase (trim raw))) as Hn.
      { intros H. apply EMAIL_RE_test_shape in H. congruence. }
      destruct (H2 Hn) as [message Hm]. congruence.
    + split; [done|]. intros [message Hm] Hs. rewrite (H1 Hs) in Hm. done.
  - intros db oid eid raw input. split.
    + intros db' doc H. apply save_Return in H as (Hv & _ & ->).
      apply validate_eventId in Hv as (_ & Hid & raw' & [= <-] & He & T).
      rewrite He. unfold email_setter in *. rewrite trim_toLowerCase in *.
      split; [done|]. split; [by apply EMAIL_RE_test_shape|].
      simpl. rewrite Hid. apply lookup_insert_eq.
    + intros Hn. destruct (Hval oid eid raw) as (_ & H2 & _).
      destruct (H2 Hn) as [message Hm]. exists message.
      unfold save. subst input. by rewrite Hm.
Qed.

(** "User@Example.COM" is stored as "user@example.com". *)
Lemma booking_email_rule_witness :
  email stored_booking = toLowerCase (trim (str "User@Example.COM"))
  /\ EmailShape (email stored_booking)
  /\ Bookings (store stored_booking one_event) !! 1%N = Some stored_booking.
Proof.
  destruct booking_email_rule as (_ & _ & H & _).
  destruct (H one_event 1%N 7%N (str "User@Example.COM")) as [H1 _].
  apply (H1 (store stored_booking one_event) stored_booking). reflexivity.
Defined.

End BookingModel.

(** ** ConnectionCache: [connectToDatabase] and [getMongoose] *)

Module Mongodb.

(** A connection handle (the [Mongoose] instance a connection resolves to),
    and a promise, both by identity. *)
Definition Mongoose : Type := nat.
Definition PromiseId : Type := nat.

Inductive PromiseState : Type :=
  | Pending
  | Fulfilled (m : Mongoose)
  | Rejected (message : string).

(** [MongooseCache]. *)
Record MongooseCache : Type := {
  conn : option Mongoose;
  promise : option PromiseId
}.

(** What a call reads and writes: the environment variable, the one cache
    object [cached] (also reachable as [globalThis._mongoose] once
    [published]), the promises created so far, and the URIs
    [mongoose.connect] was called with, latest first. *)
Record World : Type := {
  MONGODB_URI : option jsstring;
  cached : MongooseCache;
  published : bool;
  promises : gmap PromiseId PromiseState;
  connects : list jsstring
}.

Definition missing_uri : string :=
  "Please define the MONGODB_URI environment variable inside .env.local".

(** [!uri]: an undefined variable and the empty string are falsy. *)
Definition uri_missing (w : World) : bool :=
  match MONGODB_URI w with Some (_ :: _) => false | _ => true end.

(** An [async] call runs up to its first [await] without interruption; there
    it either has completed or is suspended on a promise. *)
Inductive Outcome : Type :=
  | Completes (c : Completion Mongoose)
  | Awaits (p : PromiseId).

(** [cached.promise = mongoose.connect(uri, options).then((m) => m)]: one
    more call of [mongoose.connect], and its promise stored in the cache. *)
Definition start_connecting (uri : jsstring) (w : World) : World * PromiseId :=
  let p := fresh (dom (promises w)) in
  ({| MONGODB_URI := MONGODB_URI w;
      cached := {| conn := conn (cached w); promise := Some p |};
      published := published w;
      promises := <[p := Pending]> (promises w);
      connects := uri :: connects w |}, p).

(** [connectToDatabase()], lines 36-66: from the call to the [await]. *)
Definition connectToDatabase (w : World) : World * Outcome :=
  match MONGODB_URI w with
  | Some (c :: u) =>
      match conn (cached w) with
      | Some m => (w, Completes (Return m))
      | None =>
          match promise (cached w) with
          | Some p => (w, Awaits p)
          | None =>
              let '(w', p) := start_connecting (c :: u) w in (w', Awaits p)
          end
      end
  | _ => (w, Completes (Throw missing_uri))
  end.

(** Lines 66-71: the call resumes once the awaited promise is settled.  A
    fulfilled promise gives [cached.conn], [globalThis._mongoose = cached] and
    the return of [cached.conn]; a rejected one makes the call throw. *)
Definition resume (p : PromiseId) (w : World) : World * Outcome :=
  match promises w !! p with
  | Some (Fulfilled m) =>
      ({| MONGODB_URI := MONGODB_URI w;
          cached := {| conn := Some m; promise := promise (cached w) |};
          published := true;
          promises := promises w;
          connects := connects w |}, Completes (Return m))
  | Some (Rejected message) => (w, Completes (Throw message))
  | _ => (w, Awaits p)
  end.

(** [getMongoose()]. *)
Definition getMongoose (w : World) : option Mongoose := conn (cached w).

(** The underlying connection attempt behind promise [p] ends. *)
Definition settle (p : PromiseId) (r : PromiseState) (w : World) : World :=
  {| MONGODB_URI := MONGODB_URI w;
     cached := cached w;
     published := published w;
     promises := <[p := r]> (promises w);
     connects := connects w |}.

(** *** Concurrent callers *)

Inductive Task : Type :=
  | NotCalled
  | Suspended (p : PromiseId)
  | Completed (c : Completion Mongoose).

Definition task_of (o : Outcome) : Task :=
  match o with
  | Completes c => Completed c
  | Awaits p => Suspended p
  end.

(** What happens next in the event loop: caller [i] calls
    [connectToDatabase], the connection attempt behind a pending promise ends,
    or caller [i], suspended on a promise that has been settled, resumes. *)
Inductive Event : Type :=
  | Call (i : nat)
  | Settle (p : PromiseId) (r : PromiseState)
  | Resume (i : nat).

Definition is_settled (r : PromiseState) : bool :=
  match r with Pending => false | _ => true end.

(** One step of the event loop, when the event can happen.  The environment
    variable stays as it is. *)
Definition exec1 (e : Event) (s : World * list Task) : option (World * list Task) :=
  let '(w, ts) := s in
  match e with
  | Call i =>
      match ts !! i with
      | Some NotCalled =>
          let '(w', o) := connectToDatabase w in Some (w', <[i := task_of o]> ts)
      | _ => None
      end
  | Settle p r =>
      match promises w !! p with
      | Some Pending => if is_settled r then Some (settle p r w, ts) else None
      | _ => None
      end
  | Resume i =>
      match ts !! i with
      | Some (Suspended p) =>
          match promises w !! p with
          | Some r =>
              if is_settled r
              then let '(w', o) := resume p w in Some (w', <[i := task_of o]> ts)
              else None
          | None => None
          end
      | _ => None
      end
  end.

Definition step (s s' : World * list Task) : Prop :=
  exists e, exec1 e s = Some s'.

Fixpoint exec (es : list Event) (s : World * list Task) : option (World * list Task) :=
  match es with
  | [] => Some s
  | e :: es' => match exec1 e s with Some s' => exec es' s' | None => None end
  end.

(** A process that has not connected yet. *)
Definition initial (uri : option jsstring) : World :=
  {| MONGODB_URI := uri;
     cached := {| conn := None; promise := None |};
     published := false;
     promises := ∅;
     connects := [] |}.

(** What the cache knows in a run that started from [initial]: no promise,
    no attempt and no caller yet; or one promise, one attempt, every suspended
    caller waiting on that promise and every completed caller holding its
    result. *)
Definition task_ok (ps : gmap PromiseId PromiseState) (p : PromiseId) (t : Task) : Prop :=
  match t with
  | NotCalled => True
  | Suspended q => q = p
  | Completed (Return m) => ps !! p = Some (Fulfilled m)
  | Completed (Throw message) => ps !! p = Some (Rejected message)
  end.

(** A caller that has not called yet, or, when the URI is missing, one whose
    call threw at once. *)
Definition idle (w : World) (t : Task) : Prop :=
  t = NotCalled \/ (uri_missing w = true /\ t = Completed (Throw missing_uri)).

Definition Inv (uri : option jsstring) (s : World * list Task) : Prop :=
  let '(w, ts) := s in
  MONGODB_URI w = uri
  /\ match promise (cached w) with
     | None =>
         connects w = [] /\ conn (cached w) = None /\ promises w = ∅
         /\ Forall (idle w) ts
     | Some p =>
         uri_missing w = false /\ connects w = option_list uri
         /\ is_Some (promises w !! p)
         /\ (forall m, conn (cached w) = Some m -> promises w !! p = Some (Fulfilled m))
         /\ Forall (task_ok (promises w) p) ts
     end.

(** A process with a live cached connection whose environment no longer
    defines the URI (the cache object outlives module reloads on
    [globalThis]; the variable is read again at every call). *)
Definition connected_without_uri : World :=
  {| MONGODB_URI := None;
     cached := {| conn := Some 5; promise := Some 0 |};
     published := true;
     promises := {[ 0 := Fulfilled 5 ]};
     connects := [str "mongodb://db"] |}.

Definition two_callers : list Task := [NotCalled; NotCalled].

(** Both callers call before the connection is up; it then succeeds. *)
Definition both_then_connected : list Event :=
  [Call 0; Call 1; Settle 0 (Fulfilled 5); Resume 1; Resume 0].

(** The connection fails; a third caller arrives after the failure. *)
Definition three_callers : list Task := [NotCalled; NotCalled; NotCalled].

Definition failure_then_late_call : list Event :=
  [Call 0; Call 1; Settle 0 (Rejected "ECONNREFUSED"); Resume 0; Resume 1;
   Call 2; Resume 2].

(** *** One call *)

Lemma connect_missing_uri w :
  uri_missing w = true -> connectToDatabase w = (w, Completes (Throw missing_uri)).
Proof.
  unfold uri_missing, connectToDatabase.
  by destruct (MONGODB_URI w) as [[|c u]|].
Qed.

Lemma connect_cached w m :
  uri_missing w = false -> conn (cached w) = Some m ->
  connectToDatabase w = (w, Completes (Return m)).
Proof.
  unfold uri_missing, connectToDatabase.
  destruct (MONGODB_URI w) as [[|c u]|]; try done. by intros _ ->.
Qed.

Lemma connect_in_flight w p :
  uri_missing w = false -> conn (cached w) = None -> promise (cached w) = Some p ->
  connectToDatabase w = (w, Awaits p).
Proof.
  unfold uri_missing, connectToDatabase.
  destruct (MONGODB_URI w) as [[|c u]|]; try done. by intros _ -> ->.
Qed.

Lemma connect_first w uri :
  MONGODB_URI w = Some uri -> uri <> [] ->
  conn (cached w) = None -> promise (cached w) = None ->
  connectToDatabase w =
    (fst (start_connecting uri w), Awaits (fresh (dom (promises w)))).
Proof.
  unfold connectToDatabase. intros -> Hne -> ->. by destruct uri.
Qed.

Lemma connect_throws_only_missing_uri w message :
  snd (connectToDatabase w) = Completes (Throw message) ->
  uri_missing w = true /\ message = missing_uri.
Proof.
  unfold uri_missing, connectToDatabase.
  destruct (MONGODB_URI w) as [[|c u]|]; try by intros [= <-].
  destruct (conn (cached w)); [done|]. by destruct (promise (cached w)).
Qed.

Lemma connect_with_promise w p :
  promise (cached w) = Some p -> fst (connectToDatabase w) = w.
Proof.
  unfold connectToDatabase. intros Hp.
  destruct (MONGODB_URI w) as [[|c u]|]; try done.
  destruct (conn (cached w)); [done|]. by rewrite Hp.
Qed.

Lemma resume_fulfilled w p m :
  promises w !! p = Some (Fulfilled m) ->
  snd (resume p w) = Completes (Return m)
  /\ conn (cached (fst (resume p w))) = Some m
  /\ promise (cached (fst (resume p w))) = promise (cached w)
  /\ connects (fst (resume p w)) = connects w.
Proof. unfold resume. by intros ->. Qed.

Lemma resume_rejected w p message :
  promises w !! p = Some (Rejected message) ->
  resume p w = (w, Completes (Throw message)).
Proof. unfold resume. by intros ->. Qed.

(** *** Runs of the event loop *)

Lemma exec_steps es s s' : exec es s = Some s' -> rtc step s s'.
Proof.
  revert s. induction es as [|e es IH]; simpl; intros s H.
  - injection H as <-. apply rtc_refl.
  - destruct (exec1 e s) as [s1|] eqn:E; [|done].
    eapply rtc_l; [by exists e|by apply IH].
Qed.

Lemma task_ok_idle w p ts :
  uri_missing w = false -> Forall (idle w) ts -> Forall (task_ok (promises w) p) ts.
Proof.
  intros Hu H. eapply Forall_impl; [exact H|].
  intros t [->|[Hm _]]; [done|congruence].
Qed.

Lemma Inv_initial uri ts :
  Forall (fun t => t = NotCalled) ts -> Inv uri (initial uri, ts).
Proof.
  intros H. split; [done|]. simpl. split; [done|]. split; [done|]. split; [done|].
  eapply Forall_impl; [exact H|]. intros t ->. by left.
Qed.

Lemma Inv_step uri s s' : Inv uri s -> step s s' -> Inv uri s'.
Proof.
  destruct s as [w ts], s' as [w' ts']. intros [Huri Hc] [e He].
  destruct e as [i|p r|i]; simpl in He.
  - destruct (ts !! i) as [[| |]|] eqn:Hi; try done.
    destruct (uri_missing w) eqn:Hu.
    { rewrite connect_missing_uri in He by done. injection He as <- <-.
      split; [done|]. destruct (promise (cached w)) as [p|].
      - destruct Hc as (Hu' & _). congruence.
      - destruct Hc as (Hcs & Hcn & Hps & Hts).
        split; [done|]. split; [done|]. split; [done|].
        apply Forall_insert; [done|]. by right. }
    destruct (conn (cached w)) as [m|] eqn:Hconn.
    + rewrite (connect_cached w m) in He by done.
      injection He as <- <-. split; [done|].
      destruct (promise (cached w)) as [p|]; [|by destruct Hc as (_ & ? & _)].
      destruct Hc as (_ & Hcs & Hp & Hm & Hts).
      split; [done|]. split; [done|]. split; [done|].
      split; [intros m0 E; apply Hm; congruence|].
      apply Forall_insert; [done|]. by apply Hm.
    + destruct (promise (cached w)) as [p|] eqn:Hp.
      * rewrite (connect_in_flight w p) in He by done.
        injection He as <- <-. split; [done|]. rewrite Hp.
        destruct Hc as (_ & Hcs & Hsome & Hm & Hts).
        split; [done|]. split; [done|]. split; [done|].
        split; [intros m0 E; congruence|].
        by apply Forall_insert.
      * destruct Hc as (Hcs & _ & Hps & Hts).
        pose proof (task_ok_idle w (fresh (dom (promises w))) ts Hu Hts) as Hok.
        unfold uri_missing in Hu.
        destruct (MONGODB_URI w) as [[|c u]|] eqn:Henv; try done.
        rewrite (connect_first w (c :: u)) in He by done.
        injection He as <- <-. simpl. split; [congruence|].
        split; [unfold uri_missing; simpl; by rewrite Henv|].
        split; [rewrite Hcs; destruct uri; by simplify_eq|].
        split; [by rewrite lookup_insert_eq|].
        split; [by rewrite Hconn|].
        apply Forall_insert; [|done].
        eapply Forall_impl; [exact Hok|].
        intros [|q|[m|message]]; simpl; try done.
        -- by rewrite Hps, lookup_empty.
        -- by rewrite Hps, lookup_empty.
  - destruct (promises w !! p) as [[| |]|] eqn:Hp; try done.
    destruct (is_settled r) eqn:Hr; [|done]. injection He as <- <-.
    split; [done|]. simpl.
    destruct (promise (cached w)) as [q|].
    + destruct Hc as (Hu & Hcs & Hsome & Hm & Hts).
      split; [done|]. split; [done|].
      split; [rewrite lookup_insert; case_decide; by eauto|].
      split.
      * intros m Hcm. specialize (Hm m Hcm).
        rewrite lookup_insert_ne; [done|]. intros ->. congruence.
      * eapply Forall_impl; [exact Hts|].
        intros [|q'|[m|message]]; simpl; try done.
        -- intros H. rewrite lookup_insert_ne; [done|]. intros ->. congruence.
        -- intros H. rewrite lookup_insert_ne; [done|]. intros ->. congruence.
    + destruct Hc as (_ & _ & Hps & _). by rewrite Hps in Hp.
  - destruct (ts !! i) as [[|p|]|] eqn:Hi; try done.
    destruct (promises w !! p) as [r|] eqn:Hp; [|done].
    destruct (is_settled r) eqn:Hr; [|done].
    destruct (promise (cached w)) as [q|] eqn:Hq.
    + destruct Hc as (Hu & Hcs & Hsome & Hm & Hts).
      assert (p = q) as ->.
      { rewrite Forall_lookup in Hts. by apply (Hts i (Suspended p)). }
      unfold resume in He. rewrite Hp in He. destruct r as [|m|message]; [done| |].
      * injection He as <- <-. split; [done|]. simpl. rewrite Hq.
        split; [done|]. split; [done|]. split; [done|].
        split; [by intros m' [= <-]|].
        by apply Forall_insert.
      * injection He as <- <-. split; [done|]. rewrite Hq.
        split; [done|]. split; [done|]. split; [done|]. split; [done|].
        by apply Forall_insert.
    + destruct Hc as (_ & _ & _ & Hts). rewrite Forall_lookup in Hts.
      by destruct (Hts i _ Hi) as [?|[_ ?]].
Qed.

Lemma Inv_reachable uri ts0 s :
  Forall (fun t => t = NotCalled) ts0 ->
  rtc step (initial uri, ts0) s -> Inv uri s.
Proof.
  intros H0. revert s. apply rtc_ind_r.
  - by apply Inv_initial.
  - intros y z _ Hstep IH. by apply (Inv_step uri y).
Qed.

(** A settled promise stays as it is, and so does the cache's promise slot,
    once filled. *)
Lemma step_keeps_settled s s' p r :
  step s s' -> promises (fst s) !! p = Some r -> is_settled r = true ->
  promises (fst s') !! p = Some r.
Proof.
  destruct s as [w ts], s' as [w' ts']. intros [e He] Hp Hr. simpl in *.
  destruct e as [i|q r'|i]; simpl in He.
  - destruct (ts !! i) as [[| |]|]; try done.
    unfold connectToDatabase in He.
    destruct (MONGODB_URI w) as [[|c u]|]; try by injection He as <- <-.
    destruct (conn (cached w)); [by injection He as <- <-|].
    destruct (promise (cached w)); [by injection He as <- <-|].
    injection He as <- <-. simpl. rewrite lookup_insert_ne; [done|].
    intros E. apply (is_fresh (dom (promises w))). rewrite E.
    apply elem_of_dom. eauto.
  - destruct (promises w !! q) as [[| |]|] eqn:Hq; try done.
    destruct (is_settled r'); [|done]. injection He as <- <-. simpl.
    rewrite lookup_insert_ne; [done|]. intros ->.
    rewrite Hp in Hq. injection Hq as ->. done.
  - destruct (ts !! i) as [[|q|]|]; try done.
    destruct (promises w !! q) as [r'|] eqn:Hq; [|done].
    destruct (is_settled r'); [|done]. unfold resume in He. rewrite Hq in He.
    by destruct r'; injection He as <- <-.
Qed.

Lemma step_keeps_promise s s' p :
  step s s' -> promise (cached (fst s)) = Some p ->
  promise (cached (fst s')) = Some p.
Proof.
  destruct s as [w ts], s' as [w' ts']. intros [e He] Hp. simpl in *.
  destruct e as [i|q r'|i]; simpl in He.
  - destruct (ts !! i) as [[| |]|]; try done.
    pose proof (connect_with_promise w p Hp) as Hw.
    destruct (connectToDatabase w) as [w1 o]. injection He as <- <-.
    simpl in Hw. by subst.
  - destruct (promises w !! q) as [[| |]|]; try done.
    destruct (is_settled r'); [|done]. by injection He as <- <-.
  - destruct (ts !! i) as [[|q|]|]; try done.
    destruct (promises w !! q) as [r'|] eqn:Hq; [|done].
    destruct (is_settled r'); [|done]. unfold resume in He. rewrite Hq in He.
    by destruct r'; injection He as <- <-.
Qed.

Lemma run_keeps_failure s s' p r :
  rtc step s s' ->
  promise (cached (fst s)) = Some p -> promises (fst s) !! p = Some r ->
  is_settled r = true ->
  promise (cached (fst s')) = Some p /\ promises (fst s') !! p = Some r.
Proof.
  intros Hrun Hp Hr Hs. induction Hrun as [|s s1 s' Hstep Hrun IH]; [done|].
  apply IH.
  - by apply (step_keeps_promise s).
  - by apply (step_keeps_settled s).
Qed.

Definition db_uri : jsstring := str "mongodb://db".

Definition run_from (uri : jsstring) (ts : list Task) (es : list Event)
    : World * list Task :=
  default (initial (Some uri), ts) (exec es (initial (Some uri), ts)).

Lemma run_from_steps uri ts es :
  exec es (initial (Some uri), ts) <> None ->
  rtc step (initial (Some uri), ts) (run_from uri ts es).
Proof.
  intros H. unfold run_from.
  destruct (exec es (initial (Some uri), ts)) as [s|] eqn:Hs; [|done].
  simpl. by apply exec_steps with es.
Qed.

(** *** The contract of the cache *)

(** With a live connection cached and the URI no longer defined, the call
    throws the missing-configuration error; it does not return the cached
    connection. *)
Lemma cached_call_without_uri_throws :
  getMongoose connected_without_uri = Some 5
  /\ connectToDatabase connected_without_uri
       = (connected_without_uri, Completes (Throw missing_uri))
  /\ snd (connectToDatabase connected_without_uri) <> Completes (Return 5).
Proof. by vm_compute. Qed.

(** C1, as the code has it.  The URI is checked first, at every call: a call
    made while it is missing throws the missing-configuration error whatever
    the cache holds, and this is the only error a call throws before its
    [await].  A call made while the URI is defined and a live connection is
    cached returns that connection at once, leaving the cache, the promises
    and the list of connection attempts as they were. *)
Theorem connect_checks_uri_first :
  (forall w : World,
     (uri_missing w = true ->
        connectToDatabase w = (w, Completes (Throw missing_uri)))
     /\ (uri_missing w = false -> forall m, conn (cached w) = Some m ->
           connectToDatabase w = (w, Completes (Return m)))
     /\ (forall message,
           snd (connectToDatabase w) = Completes (Throw message) ->
           uri_missing w = true /\ message = missing_uri))
  /\ connectToDatabase (initial None) = (initial None, Completes (Throw missing_uri))
  /\ connectToDatabase (initial (Some [])) = (initial (Some []), Completes (Throw missing_uri))
  /\ snd (connectToDatabase (fst (run_from db_uri two_callers both_then_connected)))
       = Completes (Return 5)
  /\ connects (fst (connectToDatabase (fst (run_from db_uri two_callers both_then_connected))))
       = [db_uri].
Proof.
  split; [|by vm_compute].
  intros w. split; [apply connect_missing_uri|].
  split; [by intros Hu m Hm; apply connect_cached|].
  apply connect_throws_only_missing_uri.
Qed.

(** The same cache in a process whose URI is defined. *)
Definition connected_with_uri : World :=
  {| MONGODB_URI := Some db_uri;
     cached := {| conn := Some 5; promise := Some 0 |};
     published := true;
     promises := {[ 0 := Fulfilled 5 ]};
     connects := [db_uri] |}.

(** The two cases on one cache: without the URI the call throws, with it the
    call returns the cached connection. *)
Lemma connect_checks_uri_first_witness :
  connectToDatabase connected_without_uri
    = (connected_without_uri, Completes (Throw missing_uri))
  /\ connectToDatabase connected_with_uri
       = (connected_with_uri, Completes (Return 5)).
Proof.
  destruct connect_checks_uri_first as [H _]. split.
  - destruct (H connected_without_uri) as (H1 & _). apply H1. reflexivity.
  - destruct (H connected_with_uri) as (_ & H2 & _). apply H2; reflexivity.
Defined.

Lemma Inv_one_attempt uri w ts p :
  Inv uri (w, ts) -> promise (cached w) = Some p ->
  uri_missing w = false /\ connects w = option_list uri
  /\ List.length (connects w) = 1%nat
  /\ (forall m, conn (cached w) = Some m -> promises w !! p = Some (Fulfilled m))
  /\ Forall (task_ok (promises w) p) ts.
Proof.
  intros [Huri Hc] Hp. rewrite Hp in Hc.
  destruct Hc as (Hu & Hcs & _ & Hm & Hts).
  split; [done|]. split; [done|]. split; [|done].
  rewrite Hcs, <- Huri. unfold uri_missing in Hu.
  by destruct (MONGODB_URI w) as [[|c u]|].
Qed.

(** C8, as the code has it.  The cache meant is the [cached] object of one
    evaluation of the module.  While its promise slot is filled, a call
    leaves the world as it is: it calls [mongoose.connect] no more.  Such a
    call made while the URI is missing throws the missing-configuration
    error and awaits nothing; made while the URI is defined it returns the
    cached connection, or awaits the stored promise and, once that is
    fulfilled, returns its value.  In every run of any number of callers
    through one evaluation of the module, in a process that starts without a
    connection and whose environment stays as it is, [mongoose.connect] is
    called at most once; once the slot is filled there has been exactly one
    attempt, a call awaits the stored promise or returns its value, every
    suspended caller waits on it, and all callers that get a connection get
    the same one, the value of the stored promise.  Two callers that both call
    before the connection is up both receive it, after one attempt. *)
Theorem single_connection_attempt :
  (forall (w : World) (p : PromiseId),
     promise (cached w) = Some p ->
     fst (connectToDatabase w) = w
     /\ (uri_missing w = true ->
           connectToDatabase w = (w, Completes (Throw missing_uri)))
     /\ (uri_missing w = false -> conn (cached w) = None ->
           connectToDatabase w = (w, Awaits p))
     /\ (uri_missing w = false -> forall m, conn (cached w) = Some m ->
           connectToDatabase w = (w, Completes (Return m)))
     /\ (forall m, promises w !! p = Some (Fulfilled m) ->
           snd (resume p w) = Completes (Return m)
           /\ connects (fst (resume p w)) = connects w))
  /\ (forall (uri : option jsstring) (ts0 : list Task) (w : World) (ts : list Task),
        Forall (fun t => t = NotCalled) ts0 ->
        rtc step (initial uri, ts0) (w, ts) ->
        (List.length (connects w) <= 1)%nat
        /\ (forall p, promise (cached w) = Some p ->
              connects w = option_list uri /\ List.length (connects w) = 1%nat
              /\ ((conn (cached w) = None /\ connectToDatabase w = (w, Awaits p))
                  \/ (exists m, promises w !! p = Some (Fulfilled m)
                        /\ connectToDatabase w = (w, Completes (Return m)))))
        /\ (forall i q, ts !! i = Some (Suspended q) -> promise (cached w) = Some q)
        /\ (forall i m, ts !! i = Some (Completed (Return m)) ->
              exists p, promise (cached w) = Some p
                        /\ promises w !! p = Some (Fulfilled m))
        /\ (forall i j m1 m2,
              ts !! i = Some (Completed (Return m1)) ->
              ts !! j = Some (Completed (Return m2)) -> m1 = m2))
  /\ rtc step (initial (Some db_uri), two_callers)
       (run_from db_uri two_callers both_then_connected)
  /\ snd (run_from db_uri two_callers both_then_connected)
       = [Completed (Return 5); Completed (Return 5)]
  /\ connects (fst (run_from db_uri two_callers both_then_connected)) = [db_uri]
  /\ snd (run_from db_uri two_callers [Call 0; Call 1])
       = [Suspended 0; Suspended 0].
Proof.
  split; [|split].
  - intros w p Hp. split; [by apply connect_with_promise with p|].
    split; [apply connect_missing_uri|].
    split; [by intros; apply connect_in_flight|].
    split; [by intros; apply connect_cached|].
    intros m Hm. by destruct (resume_fulfilled w p m Hm) as (? & _ & _ & ?).
  - intros uri ts0 w ts H0 Hrun.
    pose proof (Inv_reachable uri ts0 _ H0 Hrun) as HI.
    destruct (promise (cached w)) as [p|] eqn:Hp.
    + destruct (Inv_one_attempt _ _ _ _ HI Hp) as (Hu & Hcs & Hlen & Hm & Hts).
      rewrite Forall_lookup in Hts.
      split; [by rewrite Hlen|]. split; [|split; [|split]].
      * intros q [= <-]. split; [done|]. split; [done|].
        destruct (conn (cached w)) as [m|] eqn:Hconn.
        -- right. exists m. split; [by apply Hm|]. by apply connect_cached.
        -- left. split; [done|]. by apply connect_in_flight.
      * intros i q Hi. f_equal. symmetry. apply (Hts i _ Hi).
      * intros i m Hi. exists p. split; [done|]. apply (Hts i _ Hi).
      * intros i j m1 m2 Hi Hj.
        pose proof (Hts i _ Hi) as H1. pose proof (Hts j _ Hj) as H2.
        simpl in H1, H2. congruence.
    + destruct HI as [Huri Hc]. rewrite Hp in Hc.
      destruct Hc as (Hcs & _ & _ & Hts). rewrite Forall_lookup in Hts.
      split; [rewrite Hcs; simpl; lia|]. split; [done|]. split; [|split].
      * intros i q Hi. by destruct (Hts i _ Hi) as [?|[_ ?]].
      * intros i m Hi. by destruct (Hts i _ Hi) as [?|[_ ?]].
      * intros i j m1 m2 Hi _. by destruct (Hts i _ Hi) as [?|[_ ?]].
  - split; [apply run_from_steps; by vm_compute|by vm_compute].
Qed.

(** After both callers of [both_then_connected] have completed, exactly one
    attempt has been made and a further call returns the stored promise's
    value. *)
Lemma single_connection_attempt_witness :
  let w := fst (run_from db_uri two_callers both_then_connected) in
  connects w = [db_uri] /\ List.length (connects w) = 1%nat
  /\ ((conn (cached w) = None /\ connectToDatabase w = (w, Awaits 0%nat))
      \/ (exists m, promises w !! 0%nat = Some (Fulfilled m)
            /\ connectToDatabase w = (w, Completes (Return m)))).
Proof.
  destruct single_connection_attempt as (_ & H & Hrun & _).
  destruct (H (Some db_uri) two_callers
              (fst (run_from db_uri two_callers both_then_connected))
              (snd (run_from db_uri two_callers both_then_connected)))
    as (_ & Hp & _).
  - repeat constructor.
  - exact Hrun.
  - apply (Hp 0%nat). reflexivity.
Defined.

(** C10, as the code has it.  The cache meant is the [cached] object of one
    evaluation of the module.  A rejected promise makes the resuming call
    throw and leaves the cache as it is, with the promise still in its slot,
    and a call made then starts no attempt: made while the URI is missing it
    throws the missing-configuration error, made while the URI is defined it
    awaits the stored promise.  In every run through one evaluation of the
    module that continues a run of a process that started without a
    connection, the environment staying as it is, once the stored promise is
    rejected it stays stored and rejected, no connection is ever cached, the
    one attempt stays the only one, a call awaits the stored promise and its
    resumption throws the same error, and every caller that has completed
    threw that error.  A caller that arrives after the failure fails like the
    others. *)
Theorem failed_attempt_is_kept :
  (forall (w : World) (p : PromiseId) (message : string),
     promise (cached w) = Some p ->
     promises w !! p = Some (Rejected message) ->
     resume p w = (w, Completes (Throw message))
     /\ fst (connectToDatabase w) = w
     /\ (uri_missing w = true ->
           connectToDatabase w = (w, Completes (Throw missing_uri)))
     /\ (uri_missing w = false -> conn (cached w) = None ->
           connectToDatabase w = (w, Awaits p)))
  /\ (forall (uri : option jsstring) (ts0 : list Task) (w : World) (ts : list Task)
             (p : PromiseId) (message : string) (w' : World) (ts' : list Task),
        Forall (fun t => t = NotCalled) ts0 ->
        rtc step (initial uri, ts0) (w, ts) ->
        promise (cached w) = Some p ->
        promises w !! p = Some (Rejected message) ->
        rtc step (w, ts) (w', ts') ->
        promise (cached w') = Some p
        /\ promises w' !! p = Some (Rejected message)
        /\ conn (cached w') = None
        /\ connects w' = connects w
        /\ List.length (connects w') = 1%nat
        /\ connectToDatabase w' = (w', Awaits p)
        /\ resume p w' = (w', Completes (Throw message))
        /\ (forall i c, ts' !! i = Some (Completed c) -> c = Throw message))
  /\ rtc step (initial (Some db_uri), three_callers)
       (run_from db_uri three_callers failure_then_late_call)
  /\ snd (run_from db_uri three_callers failure_then_late_call)
       = [Completed (Throw "ECONNREFUSED"); Completed (Throw "ECONNREFUSED");
          Completed (Throw "ECONNREFUSED")]
  /\ connects (fst (run_from db_uri three_callers failure_then_late_call)) = [db_uri]
  /\ cached (fst (run_from db_uri three_callers failure_then_late_call))
       = {| conn := None; promise := Some 0 |}.
Proof.
  split; [|split].
  - intros w p message Hp Hr. split; [by apply resume_rejected|].
    split; [by apply connect_with_promise with p|].
    split; [apply connect_missing_uri|].
    by intros; apply connect_in_flight.
  - intros uri ts0 w ts p message w' ts' H0 Hrun Hp Hr Hrun'.
    destruct (run_keeps_failure _ _ p (Rejected message) Hrun' Hp Hr eq_refl)
      as [Hp' Hr']. simpl in Hp', Hr'.
    assert (rtc step (initial uri, ts0) (w', ts')) as Hall by (by etrans).
    pose proof (Inv_reachable uri ts0 _ H0 Hrun) as HI.
    pose proof (Inv_reachable uri ts0 _ H0 Hall) as HI'.
    destruct (Inv_one_attempt _ _ _ _ HI Hp) as (_ & Hcs & _).
    destruct (Inv_one_attempt _ _ _ _ HI' Hp') as (Hu' & Hcs' & Hlen' & Hm' & Hts').
    assert (conn (cached w') = None) as Hconn.
    { destruct (conn (cached w')) as [m|]; [|done].
      specialize (Hm' m eq_refl). congruence. }
    split; [done|]. split; [done|]. split; [done|].
    split; [congruence|]. split; [done|].
    split; [by apply connect_in_flight|].
    split; [by apply resume_rejected|].
    intros i c Hi. rewrite Forall_lookup in Hts'. specialize (Hts' i _ Hi).
    destruct c as [m|message']; simpl in Hts'; congruence.
  - split; [apply run_from_steps; by vm_compute|by vm_compute].
Qed.

(** The run [failure_then_late_call], cut after the first caller has seen
    the failure, and its remainder. *)
Definition failure_seen : list Event :=
  [Call 0; Call 1; Settle 0 (Rejected "ECONNREFUSED"); Resume 0].

Definition after_failure : list Event := [Resume 1; Call 2; Resume 2].

(** After the failure the slot still holds promise 0, rejected, and the
    callers that resume or arrive later throw the same error. *)
Lemma failed_attempt_is_kept_witness :
  let w' := fst (run_from db_uri three_callers failure_then_late_call) in
  promise (cached w') = Some 0%nat
  /\ promises w' !! 0%nat = Some (Rejected "ECONNREFUSED")
  /\ conn (cached w') = None
  /\ connects w' = connects (fst (run_from db_uri three_callers failure_seen))
  /\ List.length (connects w') = 1%nat
  /\ connectToDatabase w' = (w', Awaits 0%nat)
  /\ resume 0%nat w' = (w', Completes (Throw "ECONNREFUSED"))
  /\ (forall i c,
        snd (run_from db_uri three_callers failure_then_late_call) !! i
          = Some (Completed c) ->
        c = Throw "ECONNREFUSED").
Proof.
  destruct failed_attempt_is_kept as (_ & H & _).
  apply (H (Some db_uri) three_callers
           (fst (run_from db_uri three_callers failure_seen))
           (snd (run_from db_uri three_callers failure_seen))
           0%nat "ECONNREFUSED"%string
           (fst (run_from db_uri three_callers failure_then_late_call))
           (snd (run_from db_uri three_callers failure_then_late_call))).
  - repeat constructor.
  - apply (exec_steps failure_seen). reflexivity.
  - reflexivity.
  - reflexivity.
  - apply (exec_steps after_failure). reflexivity.
Defined.

End Mongodb.

(** ** Further properties of the string built-ins *)

Module JsStringFacts.

Lemma lower_char_idem c : lower_char (lower_char c) = lower_char c.
Proof. Slug.ascii_cases c. Qed.

Lemma toLowerCase_idem s : toLowerCase (toLowerCase s) = toLowerCase s.
Proof.
  induction s as [|c s IH]; [done|]. simpl. by rewrite lower_char_idem, IH.
Qed.

Lemma toLowerCase_length s : List.length (toLowerCase s) = List.length s.
Proof. apply length_map. Qed.

Section Runs.

Variable P : ascii -> bool.

Lemma dropWhile_nil s : dropWhile P s = [] <-> forallb P s = true.
Proof.
  induction s as [|c s IH]; [done|]. simpl. destruct (P c); [done|].
  split; done.
Qed.

Lemma dropWhileEnd_nil s : dropWhileEnd P s = [] <-> forallb P s = true.
Proof.
  destruct s as [|c s]; [done|]. cbn [dropWhileEnd].
  destruct (forallb P (c :: s)); split; done.
Qed.

Lemma dropWhile_length s : (List.length (dropWhile P s) <= List.length s)%nat.
Proof.
  induction s as [|c s IH]; [done|]. simpl. destruct (P c); simpl; lia.
Qed.

Lemma dropWhileEnd_length s : (List.length (dropWhileEnd P s) <= List.length s)%nat.
Proof.
  induction s as [|c s IH]; [done|]. cbn [dropWhileEnd].
  destruct (forallb P (c :: s)); simpl; lia.
Qed.

Lemma dropWhile_head s :
  match dropWhile P s with c :: _ => P c = false | [] => True end.
Proof.
  induction s as [|c s IH]; [done|]. simpl.
  destruct (P c) eqn:Hc; [done|]. done.
Qed.

Lemma dropWhile_fixed s :
  match s with c :: _ => P c = false | [] => True end -> dropWhile P s = s.
Proof. destruct s as [|c s]; [done|]. simpl. by intros ->. Qed.

Lemma dropWhileEnd_keeps_head s :
  match s with c :: _ => P c = false | [] => True end ->
  match dropWhileEnd P s with c :: _ => P c = false | [] => True end.
Proof.
  destruct s as [|c s]; [done|]. cbn [dropWhileEnd]. intros Hc.
  simpl. by rewrite Hc.
Qed.

Lemma forallb_dropWhileEnd s :
  forallb P s = false -> forallb P (dropWhileEnd P s) = false.
Proof.
  induction s as [|c s IH]; [done|]. cbn [dropWhileEnd]. intros H.
  rewrite H. simpl in *. destruct (P c); [|done]. simpl in *. by apply IH.
Qed.

Lemma dropWhileEnd_idem s : dropWhileEnd P (dropWhileEnd P s) = dropWhileEnd P s.
Proof.
  induction s as [|c s IH]; [done|]. cbn [dropWhileEnd].
  destruct (forallb P (c :: s)) eqn:H; [done|].
  cbn [dropWhileEnd]. rewrite IH.
  assert (forallb P (c :: dropWhileEnd P s) = false) as ->; [|done].
  simpl in *. destruct (P c); [|done]. simpl in *. by apply forallb_dropWhileEnd.
Qed.

End Runs.

Lemma trim_idem s : trim (trim s) = trim s.
Proof.
  unfold trim, trimStart, trimEnd.
  rewrite (dropWhile_fixed is_white_space (dropWhileEnd _ _)).
  - apply dropWhileEnd_idem.
  - apply dropWhileEnd_keeps_head, dropWhile_head.
Qed.

Lemma trim_length s : (List.length (trim s) <= List.length s)%nat.
Proof.
  unfold trim, trimStart, trimEnd.
  pose proof (dropWhileEnd_length is_white_space (dropWhile is_white_space s)).
  pose proof (dropWhile_length is_white_space s). lia.
Qed.

Lemma trim_nil s : trim s = [] <-> forallb is_white_space s = true.
Proof.
  unfold trim, trimStart, trimEnd. split.
  - intros H. apply dropWhileEnd_nil in H. apply dropWhile_nil.
    pose proof (dropWhile_head is_white_space s) as Hh.
    destruct (dropWhile is_white_space s) as [|c u]; [done|].
    simpl in H. by rewrite Hh in H.
  - intros H. apply dropWhile_nil in H. by rewrite H.
Qed.

Lemma replace_runs_length P c b s :
  (List.length (replace_runs_from P [c] b s) <= List.length s)%nat.
Proof.
  revert b. induction s as [|a s IH]; intros b; [done|]. simpl.
  destruct (P a).
  - specialize (IH true). destruct b; simpl; lia.
  - specialize (IH false). simpl. lia.
Qed.

End JsStringFacts.

(** ** Further properties of [slugify] *)

Module SlugFacts.

Import Slug JsStringFacts.

Lemma words_from_nonempty_words cur s :
  Forall (fun w => w <> []) (words_from cur s).
Proof.
  revert cur. induction s as [|c s IH]; intros cur; simpl.
  - destruct cur; by repeat constructor.
  - destruct (is_alnum c); [apply IH|].
    apply Forall_app. split; [|apply IH]. destruct cur; by repeat constructor.
Qed.

Lemma join_words_nil ws :
  Forall (fun w => w <> []) ws -> join_words ws = [] -> ws = [].
Proof.
  destruct ws as [|w rest]; [done|]. intros H E.
  apply Forall_cons in H as [Hw _]. destruct rest; simpl in E.
  - done.
  - by destruct w.
Qed.

Lemma words_nil s : words s = [] <-> forallb not_alnum s = true.
Proof.
  unfold words. split.
  - induction s as [|c s IH]; [done|]. simpl. unfold not_alnum at 1.
    destruct (is_alnum c); simpl.
    + intros H. by apply words_from_nonempty in H.
    + done.
  - intros H. by rewrite (words_from_all_sep not_alnum not_alnum_sep).
Qed.

Lemma words_from_app_sep cur s sep :
  forallb not_alnum sep = true -> words_from cur (s ++ sep) = words_from cur s.
Proof.
  intros H. revert cur. induction s as [|c s IH]; intros cur; simpl.
  - by apply (words_from_all_sep not_alnum not_alnum_sep).
  - destruct (is_alnum c); [apply IH|]. f_equal. apply IH.
Qed.

Lemma words_sep_app sep s :
  forallb not_alnum sep = true -> words (sep ++ s) = words s.
Proof.
  unfold words. induction sep as [|c sep IH]; [done|]. simpl. intros H.
  apply andb_prop in H as [Hc H]. rewrite (not_alnum_sep _ Hc). by apply IH.
Qed.

Lemma slugify_words_lower s : slugify s = join_words (words (toLowerCase s)).
Proof. by rewrite slugify_closed_form, words_trim. Qed.

Lemma slugify_nil s : slugify s = [] <-> forallb not_alnum (toLowerCase s) = true.
Proof.
  rewrite slugify_words_lower, <- words_nil. split.
  - apply join_words_nil, words_from_nonempty_words.
  - by intros ->.
Qed.

Lemma slugify_eq_words a b :
  slugify a = slugify b <-> words (toLowerCase a) = words (toLowerCase b).
Proof.
  split.
  - intros H. rewrite <- (words_trim (toLowerCase a)), <- (words_trim (toLowerCase b)).
    by rewrite <- !words_slugify, H.
  - intros H. by rewrite !slugify_words_lower, H.
Qed.

(** X1.  [slugify] gives the empty slug exactly for the titles that, lower-cased,
    hold no character of [[a-z0-9]]; a title of punctuation only is one. *)
Theorem slugify_empty_iff (s : jsstring) :
  slugify s = [] <-> forallb not_alnum (toLowerCase s) = true.
Proof. apply slugify_nil. Qed.

(** X2.  Two titles get the same slug exactly when their lower-cased texts have the
    same runs of [[a-z0-9]] characters, in the same order. *)
Theorem slugify_collision (a b : jsstring) :
  slugify a = slugify b <-> words (toLowerCase a) = words (toLowerCase b).
Proof. apply slugify_eq_words. Qed.

(** X3.  The slug ignores letter case, and any text without [[a-z0-9]] characters
    (white space, punctuation) put before or after the title. *)
Theorem slugify_ignores_case_and_padding (s before after : jsstring) :
  forallb not_alnum (toLowerCase before) = true ->
  forallb not_alnum (toLowerCase after) = true ->
  slugify (toLowerCase s) = slugify s
  /\ slugify (before ++ s ++ after) = slugify s.
Proof.
  intros Hb Ha. split.
  - by rewrite !slugify_words_lower, toLowerCase_idem.
  - apply slugify_eq_words. unfold toLowerCase. rewrite !map_app.
    rewrite words_sep_app by done. unfold words.
    by rewrite words_from_app_sep.
Qed.

Lemma slugify_ignores_case_and_padding_witness :
  slugify (toLowerCase (str "My Talk")) = slugify (str "My Talk")
  /\ slugify (str " --" ++ str "My Talk" ++ str "!! ") = slugify (str "My Talk").
Proof.
  apply (slugify_ignores_case_and_padding (str "My Talk") (str " --") (str "!! "));
    reflexivity.
Defined.

(** X4.  On titles made of code units below 256 (ASCII and Latin-1, the
    strings of this development, on which [toLowerCase] maps every unit to
    one unit), a slug has at most as many code units as the title it comes
    from. *)
Theorem slugify_length (s : jsstring) :
  (List.length (slugify s) <= List.length s)%nat.
Proof.
  rewrite slugify_stripped. unfold strip_hyphens, replace_runs.
  pose proof (dropWhileEnd_length is_hyphen
    (dropWhile is_hyphen
       (replace_runs_from not_alnum [hyphen] false (trim (toLowerCase s))))).
  pose proof (dropWhile_length is_hyphen
    (replace_runs_from not_alnum [hyphen] false (trim (toLowerCase s)))).
  pose proof (replace_runs_length not_alnum hyphen false (trim (toLowerCase s))).
  pose proof (trim_length (toLowerCase s)).
  pose proof (toLowerCase_length s). lia.
Qed.

(** X5.  The texts [slugify] leaves unchanged are exactly the slugs in canonical
    form ([[a-z0-9]] and hyphens, every hyphen between two [[a-z0-9]]
    characters), and they are exactly the values [slugify] takes. *)
Theorem slugify_fixed_points (s : jsstring) :
  (slugify s = s <-> canonical s = true)
  /\ (canonical s = true <-> exists title, slugify title = s).
Proof.
  assert (slugify s = s <-> canonical s = true) as H.
  { split; [|apply slugify_fixes_canonical].
    intros E. rewrite <- E. apply slugify_canonical. }
  split; [done|]. split.
  - intros Hc. exists s. by apply H.
  - intros [title <-]. apply slugify_canonical.
Qed.

End SlugFacts.

(** ** Further properties of [normalizeTime] *)

Module TimeFacts.

Import TimeNormalizer JsStringFacts.

Open Scope Z_scope.

Lemma normalizeTime_ext a b :
  toLowerCase (trim a) = toLowerCase (trim b) -> normalizeTime a = normalizeTime b.
Proof. unfold normalizeTime. by intros ->. Qed.

Section Padding.

Variable P : ascii -> bool.

Lemma dropWhile_app_run a s : forallb P a = true -> dropWhile P (a ++ s) = dropWhile P s.
Proof.
  induction a as [|c a IH]; [done|]. simpl. intros H.
  apply andb_prop in H as [-> H]. by apply IH.
Qed.

Lemma dropWhileEnd_app_run s b :
  forallb P b = true -> dropWhileEnd P (s ++ b) = dropWhileEnd P s.
Proof.
  intros H. induction s as [|c s IH].
  - by apply dropWhileEnd_nil.
  - change ((c :: s) ++ b) with (c :: (s ++ b)). cbn [dropWhileEnd].
    rewrite IH. simpl. by rewrite forallb_app, H, andb_true_r.
Qed.

Lemma dropWhile_dropWhileEnd_app s b :
  forallb P b = true ->
  dropWhileEnd P (dropWhile P (s ++ b)) = dropWhileEnd P (dropWhile P s).
Proof.
  intros H. induction s as [|c s IH]; simpl.
  - by rewrite (proj2 (dropWhile_nil P b) H).
  - destruct (P c); [done|].
    change (c :: s ++ b) with ((c :: s) ++ b). by apply dropWhileEnd_app_run.
Qed.

End Padding.

Lemma trim_padding before s after :
  forallb is_white_space before = true -> forallb is_white_space after = true ->
  trim (before ++ s ++ after) = trim s.
Proof.
  intros Hb Ha. unfold trim, trimStart, trimEnd.
  rewrite dropWhile_app_run by done. by apply dropWhile_dropWhileEnd_app.
Qed.

(** X6.  [normalizeTime] ignores letter case and any white space around the text:
    it gives the same result, value or error, for every such variant. *)
Theorem normalizeTime_ignores_case_and_margins (s before after : jsstring) :
  forallb is_white_space before = true ->
  forallb is_white_space after = true ->
  normalizeTime (toLowerCase s) = normalizeTime s
  /\ normalizeTime (before ++ s ++ after) = normalizeTime s.
Proof.
  intros Hb Ha. split; apply normalizeTime_ext.
  - by rewrite <- !BookingModel.trim_toLowerCase, toLowerCase_idem.
  - by rewrite trim_padding.
Qed.

Lemma normalizeTime_ignores_case_and_margins_witness :
  normalizeTime (toLowerCase (str "2:30 PM")) = normalizeTime (str "2:30 PM")
  /\ normalizeTime (str "  " ++ str "2:30 PM" ++ str " ") = normalizeTime (str "2:30 PM").
Proof.
  apply (normalizeTime_ignores_case_and_margins (str "2:30 PM") (str "  ") (str " "));
    reflexivity.
Defined.

(** The canonical texts are fixed points. *)
Definition returns_itself (hh mm : nat) : bool :=
  match normalizeTime (HH_MM (Z.of_nat hh) (Z.of_nat mm)) with
  | Return out => bool_decide (out = HH_MM (Z.of_nat hh) (Z.of_nat mm))
  | Throw _ => false
  end.

Lemma all_canonical_return_themselves :
  forallb (fun hh => forallb (returns_itself hh) (seq 0 60)) (seq 0 24) = true.
Proof. by vm_compute. Qed.

Lemma normalizeTime_canonical hh mm :
  0 <= hh <= 23 -> 0 <= mm <= 59 ->
  normalizeTime (HH_MM hh mm) = Return (HH_MM hh mm).
Proof.
  intros Hh Hm. pose proof all_canonical_return_themselves as H.
  rewrite forallb_forall in H.
  specialize (H (Z.to_nat hh)). rewrite forallb_forall in H.
  assert (returns_itself (Z.to_nat hh) (Z.to_nat mm) = true) as Hr.
  { apply H; apply in_seq; lia. }
  unfold returns_itself in Hr. rewrite !Z2Nat.id in Hr by lia.
  destruct (normalizeTime (HH_MM hh mm)) as [out|]; [|done].
  apply bool_decide_eq_true in Hr. by subst.
Qed.

Lemma normalizeTime_again input out :
  normalizeTime input = Return out -> normalizeTime out = Return out.
Proof.
  intros H. apply normalizeTime_Return in H
    as [(h & m & G & [R1 R2] & ->)|(h & mo & p & G & [R1 R2] & ->)].
  - by apply normalizeTime_canonical.
  - apply normalizeTime_canonical; [|done]. apply hour24_range. lia.
Qed.

(** X7.  Round trip: whatever [normalizeTime] returns, it returns again unchanged
    when given its own result, so saving an Event twice normalizes its time
    once. *)
Theorem normalizeTime_idempotent (input out : jsstring) :
  normalizeTime input = Return out -> normalizeTime out = Return out.
Proof. apply normalizeTime_again. Qed.

Lemma normalizeTime_idempotent_witness :
  normalizeTime (str "14:30") = Return (str "14:30").
Proof. apply (normalizeTime_idempotent (str "2:30 pm")). reflexivity. Defined.

(** X8.  The texts [normalizeTime] returns unchanged are exactly the canonical
    [HH:MM] texts with [HH] in 0..23 and [MM] in 0..59, and these are exactly
    the values it returns. *)
Theorem normalizeTime_fixed_points (s : jsstring) :
  (normalizeTime s = Return s <->
     exists hh mm, (0 <= hh <= 23 /\ 0 <= mm <= 59) /\ s = HH_MM hh mm)
  /\ ((exists input, normalizeTime input = Return s) <-> normalizeTime s = Return s).
Proof.
  assert (forall input, normalizeTime input = Return s ->
            exists hh mm, (0 <= hh <= 23 /\ 0 <= mm <= 59) /\ s = HH_MM hh mm) as H.
  { intros input Hi. apply normalizeTime_Return in Hi
      as [(h & m & G & [R1 R2] & ->)|(h & mo & p & G & [R1 R2] & ->)].
    - exists (parseInt h), (parseInt m). done.
    - exists (hour24 (parseInt h) p), (minutes_value mo).
      split; [|done]. split; [by apply hour24_range|done]. }
  split; [split|split].
  - apply H.
  - intros (hh & mm & [Hh Hm] & ->). by apply normalizeTime_canonical.
  - intros [input Hi]. by apply normalizeTime_again with input.
  - intros Hs. by exists s.
Qed.

(** X9.  The result depends only on the numbers read, not on how they are
    written: a leading zero in the hour, the minutes left out instead of
    [:00], and the white space before [am] or [pm] change nothing. *)
Theorem normalizeTime_by_value (a b : jsstring) :
  (forall h m h' m',
     Grammar24 (toLowerCase (trim a)) h m ->
     Grammar24 (toLowerCase (trim b)) h' m' ->
     parseInt h = parseInt h' -> parseInt m = parseInt m' ->
     normalizeTime a = normalizeTime b)
  /\ (forall h mo h' mo' p,
        Grammar12 (toLowerCase (trim a)) h mo p ->
        Grammar12 (toLowerCase (trim b)) h' mo' p ->
        parseInt h = parseInt h' -> minutes_value mo = minutes_value mo' ->
        normalizeTime a = normalizeTime b).
Proof.
  split.
  - intros h m h' m' G G' Eh Em.
    by rewrite (normalizeTime_24 _ _ _ G), (normalizeTime_24 _ _ _ G'), Eh, Em.
  - intros h mo h' mo' p G G' Eh Em.
    by rewrite (normalizeTime_12 _ _ _ _ G), (normalizeTime_12 _ _ _ _ G'), Eh, Em.
Qed.

Lemma normalizeTime_by_value_witness :
  normalizeTime (str "7:05") = normalizeTime (str "07:05")
  /\ normalizeTime (str "2pm") = normalizeTime (str "02:00   pm").
Proof.
  split.
  - apply (proj1 (normalizeTime_by_value (str "7:05") (str "07:05"))
             (str "7") (str "05") (str "07") (str "05")).
    + apply h24_match_Some. reflexivity.
    + apply h24_match_Some. reflexivity.
    + reflexivity.
    + reflexivity.
  - apply (proj2 (normalizeTime_by_value (str "2pm") (str "02:00   pm"))
             (str "2") None (str "02") (Some (str "00")) (str "pm")).
    + apply h12_match_Some. reflexivity.
    + apply h12_match_Some. reflexivity.
    + reflexivity.
    + reflexivity.
Defined.

Close Scope Z_scope.

End TimeFacts.

(** ** Further properties of the Event schema and its pre-save hook *)

Module EventFacts.

Import Slug TimeNormalizer EventModel JsStringFacts.

(** The [title] validator, [(v) => v.trim().length > 0]. *)
Definition title_validator (v : jsstring) : bool :=
  (0 <? List.length (trim v))%nat.

Lemma title_validator_false v :
  title_validator v = false <-> forallb is_white_space v = true.
Proof.
  rewrite <- trim_nil. unfold title_validator.
  destruct (trim v); simpl; split; done.
Qed.

Lemma white_space_lower c :
  is_white_space c = true -> not_alnum (lower_char c) = true.
Proof. ascii_cases c. Qed.

Lemma blank_no_alnum v :
  forallb is_white_space v = true -> forallb not_alnum (toLowerCase v) = true.
Proof.
  induction v as [|c v IH]; [done|]. simpl. intros H.
  apply andb_prop in H as [Hc H]. by rewrite white_space_lower, IH.
Qed.

(** X10.  The title validator rejects exactly the blank titles (empty or white space
    only), and judges a title and its trimmed form alike; a blank title has
    the empty slug. *)
Theorem title_validator_blank (v : jsstring) :
  (title_validator v = false <-> forallb is_white_space v = true)
  /\ title_validator (trim v) = title_validator v
  /\ (title_validator v = false -> slugify v = []).
Proof.
  split; [apply title_validator_false|]. split.
  - unfold title_validator. by rewrite trim_idem.
  - intros H. apply SlugFacts.slugify_nil, blank_no_alnum.
    by apply title_validator_false.
Qed.

Lemma title_validator_blank_witness : slugify (str "   ") = [].
Proof.
  destruct (title_validator_blank (str "   ")) as (_ & _ & H).
  apply H. reflexivity.
Defined.

(** *** The hook's outcomes *)

Lemma refresh_slug_date isModified this :
  date (refresh_slug isModified this) = date this
  /\ time (refresh_slug isModified this) = time this
  /\ title (refresh_slug isModified this) = title this.
Proof. unfold refresh_slug. by destruct (_ || _). Qed.

Lemma pre_save_cases isModified toISO this :
  let d := refresh_slug isModified this in
  match toISO (date this) with
  | None => pre_save isModified toISO this = (d, Some "Invalid date"%string)
  | Some iso =>
      match normalizeTime (time this) with
      | Throw message =>
          pre_save isModified toISO this = (set_date iso d, Some message)
      | Return t =>
          pre_save isModified toISO this = (set_time t (set_date iso d), None)
      end
  end.
Proof.
  intros d. unfold pre_save. fold d.
  destruct (refresh_slug_date isModified this) as (Hd & Ht & _). fold d in Hd, Ht.
  rewrite Hd. destruct (toISO (date this)) as [iso|]; [|done].
  simpl. rewrite Ht. by destruct (normalizeTime (time this)).
Qed.

(** X11.  The hook calls [next()] without an error exactly when the date parses and
    [normalizeTime] accepts the time; the date is looked at first, and the
    only errors are "Invalid date" and the two errors of [normalizeTime].
    After a successful hook the time is the canonical [HH:MM] text.  A hook
    that fails does not undo what it has assigned: after "Invalid date" the
    document differs from the given one in its slug at most, and after a time
    error it holds the ISO date and the time as given. *)
Theorem pre_save_outcomes
    (isModified : string -> bool) (toISO : jsstring -> option jsstring)
    (this : EventDocument) :
  let result := pre_save isModified toISO this in
  (snd result = None <->
     (exists iso, toISO (date this) = Some iso)
     /\ (exists t, normalizeTime (time this) = Return t))
  /\ (toISO (date this) = None ->
        result = (refresh_slug isModified this, Some "Invalid date"%string))
  /\ (forall iso message,
        toISO (date this) = Some iso -> normalizeTime (time this) = Throw message ->
        result = (set_date iso (refresh_slug isModified this), Some message)
        /\ (message = "Invalid time"%string
            \/ message = "Unrecognized time format"%string))
  /\ (snd result = None ->
        normalizeTime (time this) = Return (time (fst result))
        /\ toISO (date this) = Some (date (fst result))
        /\ exists hh mm, (0 <= hh <= 23 /\ 0 <= mm <= 59)%Z
             /\ time (fst result) = HH_MM hh mm).
Proof.
  intros result. subst result. pose proof (pre_save_cases isModified toISO this) as H.
  simpl in H. destruct (toISO (date this)) as [iso|] eqn:Hd.
  - destruct (normalizeTime (time this)) as [t|message] eqn:Ht; rewrite H; simpl.
    + split; [split; [eauto|done]|]. split; [done|]. split; [done|].
      intros _. split; [done|]. split; [done|].
      apply normalizeTime_Return in Ht
        as [(h & m & G & [R1 R2] & ->)|(h & mo & p & G & [R1 R2] & ->)].
      * exists (parseInt h), (parseInt m). done.
      * exists (hour24 (parseInt h) p), (minutes_value mo).
        split; [|done]. split; [by apply hour24_range|done].
    + split; [split; [done|by intros (_ & t & ?)]|]. split; [done|].
      split; [|done]. intros iso' message' [= <-] [= <-]. split; [done|].
      destruct (input_kind (time this)) as [(h & m & G)|[(h & mo & p & G)|[N1 N2]]].
      * rewrite (normalizeTime_24 _ _ _ G) in Ht. case_bool_decide; [done|].
        injection Ht as <-. by left.
      * rewrite (normalizeTime_12 _ _ _ _ G) in Ht. case_bool_decide; [done|].
        injection Ht as <-. by left.
      * rewrite normalizeTime_unrecognized in Ht by done.
        injection Ht as <-. by right.
  - rewrite H. simpl. split; [split; [done|by intros [[iso ?] _]]|].
    split; [done|]. split; [done|]. done.
Qed.

Lemma pre_save_outcomes_witness :
  pre_save only_description (fun _ => None) my_talk
    = (refresh_slug only_description my_talk, Some "Invalid date"%string).
Proof.
  destruct (pre_save_outcomes only_description (fun _ => None) my_talk)
    as (_ & H & _).
  apply H. reflexivity.
Defined.

(** X12.  Saving twice: when the hook succeeds and re-parsing an ISO date gives
    that date back, running the hook again on its own result succeeds and
    changes nothing. *)
Theorem pre_save_idempotent
    (isModified : string -> bool) (toISO : jsstring -> option jsstring)
    (this : EventDocument) :
  (forall text iso, toISO text = Some iso -> toISO iso = Some iso) ->
  snd (pre_save isModified toISO this) = None ->
  pre_save isModified toISO (fst (pre_save isModified toISO this))
    = (fst (pre_save isModified toISO this), None).
Proof.
  intros Hiso Hok. pose proof (pre_save_cases isModified toISO this) as H.
  simpl in H. destruct (toISO (date this)) as [iso|] eqn:Hd;
    [|by rewrite H in Hok].
  destruct (normalizeTime (time this)) as [t|message] eqn:Ht;
    [|by rewrite H in Hok].
  rewrite H. simpl. clear H Hok.
  set (d1 := set_time t (set_date iso (refresh_slug isModified this))).
  pose proof (pre_save_cases isModified toISO d1) as H1. cbv zeta in H1.
  change (date d1) with iso in H1. change (time d1) with t in H1.
  rewrite (Hiso _ _ Hd), (TimeFacts.normalizeTime_again _ _ Ht) in H1.
  rewrite H1. f_equal.
  assert (refresh_slug isModified d1 = d1) as ->.
  { unfold refresh_slug, d1, slug_unset. destruct this as [ti sl]; simpl.
    unfold refresh_slug, slug_unset. simpl.
    destruct (isModified "title"%string); simpl; [done|].
    destruct sl as [[|c sl]|]; simpl; try done.
    - by destruct (slugify ti).
    - by destruct (slugify ti). }
  by destruct this.
Qed.

Lemma pre_save_idempotent_witness :
  pre_save new_document any_date (fst (pre_save new_document any_date my_talk))
    = (fst (pre_save new_document any_date my_talk), None).
Proof.
  apply (pre_save_idempotent new_document any_date my_talk).
  - intros text iso H. unfold any_date in *. congruence.
  - reflexivity.
Defined.

End EventFacts.

(** ** Further properties of the Booking schema and of [save] *)

Module BookingFacts.

Import TimeNormalizer BookingModel JsStringFacts.

Lemma email_setter_again v : email_setter (email_setter v) = email_setter v.
Proof.
  unfold email_setter.
  by rewrite (trim_toLowerCase v), toLowerCase_idem, trim_toLowerCase, trim_idem.
Qed.

(** X13.  The email setters are idempotent, and they store the same text for all
    the spellings of an address that differ in letter case or in white space
    around it. *)
Theorem email_setter_normal_form (v before after : jsstring) :
  forallb is_white_space before = true ->
  forallb is_white_space after = true ->
  email_setter (email_setter v) = email_setter v
  /\ email_setter (toLowerCase v) = email_setter v
  /\ email_setter (before ++ v ++ after) = email_setter v.
Proof.
  intros Hb Ha. split; [apply email_setter_again|]. unfold email_setter. split.
  - by rewrite toLowerCase_idem.
  - by rewrite !trim_toLowerCase, TimeFacts.trim_padding.
Qed.

Lemma email_setter_normal_form_witness :
  email_setter (email_setter (str "User@Example.COM")) = email_setter (str "User@Example.COM")
  /\ email_setter (toLowerCase (str "User@Example.COM")) = email_setter (str "User@Example.COM")
  /\ email_setter (str " " ++ str "User@Example.COM" ++ str "  ")
       = email_setter (str "User@Example.COM").
Proof.
  apply (email_setter_normal_form (str "User@Example.COM") (str " ") (str "  "));
    reflexivity.
Defined.

(** The [@] characters of a text. *)
Definition ats (s : jsstring) : jsstring := filter (fun c => c = "@"%char) s.

Lemma ats_none s : forallb not_space_at s = true -> ats s = [].
Proof.
  unfold ats. induction s as [|c s IH]; [done|]. simpl. intros H.
  apply andb_prop in H as [Hc H]. rewrite filter_cons.
  destruct (decide (c = "@"%char)) as [->|]; [done|]. by apply IH.
Qed.

(** X14.  What [EMAIL_RE] never accepts: a text with white space, with no [@] or
    more than one, with fewer than five characters, or with [@] as its first
    or last character. *)
Theorem EMAIL_RE_accepted (v : jsstring) :
  EMAIL_RE_test v = true ->
  forallb (fun c => negb (is_white_space c)) v = true
  /\ List.length (ats v) = 1%nat
  /\ (5 <= List.length v)%nat
  /\ (exists c, head v = Some c /\ c <> "@"%char)
  /\ (exists c, last v = Some c /\ c <> "@"%char).
Proof.
  intros H. apply EMAIL_RE_test_shape in H.
  split; [by apply EmailShape_no_space|].
  destruct H as (l & d & t & -> & Hnl & Hnd & Hnt & Hl & Hd & Ht).
  split; [|split; [|split]].
  - unfold ats. rewrite filter_app, filter_cons_True by done.
    rewrite filter_app, filter_cons_False by done.
    fold (ats l) (ats d) (ats t). by rewrite !ats_none.
  - rewrite length_app. simpl. rewrite length_app. simpl.
    destruct l, d, t; simpl; try done. lia.
  - destruct l as [|c l]; [done|]. exists c. split; [done|].
    simpl in Hl. apply andb_prop in Hl as [Hc _]. unfold not_space_at in Hc.
    apply andb_prop in Hc as [_ Hc]. intros ->. done.
  - destruct (last t) as [c|] eqn:Hlast; [|by apply last_None in Hlast].
    apply last_Some in Hlast as [t' ->]. exists c. split.
    + replace (l ++ "@"%char :: d ++ "."%char :: t' ++ [c])
        with ((l ++ "@"%char :: d ++ "."%char :: t') ++ [c]).
      * apply last_snoc.
      * rewrite <- app_assoc. simpl. by rewrite <- app_assoc.
    + rewrite forallb_app in Ht.
      apply andb_prop in Ht as [_ Hc]. simpl in Hc. rewrite andb_true_r in Hc.
      unfold not_space_at in Hc. apply andb_prop in Hc as [_ Hc].
      intros ->. done.
Qed.

Lemma EMAIL_RE_accepted_witness :
  forallb (fun c => negb (is_white_space c)) (str "user@example.com") = true
  /\ List.length (ats (str "user@example.com")) = 1%nat
  /\ (5 <= List.length (str "user@example.com"))%nat
  /\ (exists c, head (str "user@example.com") = Some c /\ c <> "@"%char)
  /\ (exists c, last (str "user@example.com") = Some c /\ c <> "@"%char).
Proof. apply (EMAIL_RE_accepted (str "user@example.com")). reflexivity. Defined.

(** *** What [save] leaves alone *)

Lemma save_cases db oid input :
  (exists message, save db oid input = (db, Throw message))
  \/ (exists doc, save db oid input = (store doc db, Return doc)
        /\ validate oid input = Return doc /\ pre_save db doc = None).
Proof.
  unfold save. destruct (validate oid input) as [doc|message]; [|eauto].
  destruct (pre_save db doc) eqn:E; [eauto|]. right. eauto.
Qed.

(** X15.  [save] never changes the Events, nor any Booking other than the one it
    is called for; a rejected [save] changes nothing at all. *)
Theorem save_frame (db : Database) (oid : ObjectId) (input : BookingInput) :
  Events (fst (save db oid input)) = Events db
  /\ fault (fst (save db oid input)) = fault db
  /\ (forall other, other <> oid ->
        Bookings (fst (save db oid input)) !! other = Bookings db !! other)
  /\ (forall message, snd (save db oid input) = Throw message ->
        fst (save db oid input) = db).
Proof.
  destruct (save_cases db oid input) as [[message ->]|(doc & -> & Hv & _)]; simpl.
  - done.
  - split; [done|]. split; [done|]. split; [|done].
    intros other Hne. apply validate_eventId in Hv as (_ & -> & _).
    by apply lookup_insert_ne.
Qed.

Lemma pre_save_store db doc this :
  pre_save (store doc db) this = pre_save db this.
Proof. done. Qed.

(** The fields of a stored document, given back to [save] as they are. *)
Definition fields_of (doc : BookingDocument) : BookingInput :=
  {| input_eventId := Some (eventId doc); input_email := Some (email doc) |}.

Lemma validate_fields_of oid input doc :
  validate oid input = Return doc -> validate oid (fields_of doc) = Return doc.
Proof.
  intros H. apply validate_eventId in H as (_ & Hid & raw & _ & He & Ht).
  unfold validate, fields_of. simpl. rewrite He, email_setter_again.
  destruct doc as [i e m]. simpl in *. subst i m.
  destruct (email_setter raw) as [|c v] eqn:E; [done|]. by rewrite Ht.
Qed.

(** X16.  Calling [save()] again on a Booking document that a successful
    [save] has stored, under its own [_id] and with its fields unchanged (or
    assigned once more from the same input), succeeds again and leaves the
    database as the first [save] left it: no second document appears.  The
    hook runs again, so this is for a database in which the Event is still
    there.  Saving a second, new Booking made from the same input is another
    matter and is not covered: it has an [_id] of its own. *)
Theorem save_idempotent
    (db db' : Database) (oid : ObjectId) (input : BookingInput) (doc : BookingDocument) :
  save db oid input = (db', Return doc) ->
  _id doc = oid
  /\ Bookings db' !! oid = Some doc
  /\ save db' (_id doc) (fields_of doc) = (db', Return doc)
  /\ save db' (_id doc) input = (db', Return doc).
Proof.
  intros H. apply save_Return in H as (Hv & Hp & ->).
  assert (_id doc = oid) as Hid by (by apply validate_eventId in Hv as (_ & ? & _)).
  assert (store doc (store doc db) = store doc db) as Hst.
  { unfold store. simpl. by rewrite insert_insert_eq. }
  split; [done|]. split; [by unfold store; simpl; rewrite Hid, lookup_insert_eq|].
  rewrite Hid. split.
  - unfold save. by rewrite (validate_fields_of _ _ _ Hv), pre_save_store, Hp, Hst.
  - unfold save. by rewrite Hv, pre_save_store, Hp, Hst.
Qed.

Lemma save_idempotent_witness :
  _id stored_booking = 1%N
  /\ Bookings (store stored_booking one_event) !! 1%N = Some stored_booking
  /\ save (store stored_booking one_event) (_id stored_booking) (fields_of stored_booking)
       = (store stored_booking one_event, Return stored_booking)
  /\ save (store stored_booking one_event) (_id stored_booking) user_booking
       = (store stored_booking one_event, Return stored_booking).
Proof. apply (save_idempotent one_event). reflexivity. Defined.

End BookingFacts.

(** ** Further properties of the connection cache *)

Module CacheFacts.

Import Mongodb.

Lemma cons_neq {A} (x : A) (l : list A) : x :: l <> l.
Proof. intros E. apply (f_equal List.length) in E. simpl in E. lia. Qed.

(** X17.  A call starts a connection attempt exactly when the URI is defined and
    both slots of the cache are empty; every other call leaves the world as it
    is.  The attempt is made with the URI of the environment, and its promise
    is a new one: the promises there were stay as they are. *)
Theorem connect_starts_attempt_iff (w : World) :
  (fst (connectToDatabase w) <> w <->
     uri_missing w = false /\ conn (cached w) = None /\ promise (cached w) = None)
  /\ (uri_missing w = false -> conn (cached w) = None -> promise (cached w) = None ->
        let w' := fst (connectToDatabase w) in
        let p := fresh (dom (promises w)) in
        (exists uri, MONGODB_URI w = Some uri /\ connects w' = uri :: connects w)
        /\ snd (connectToDatabase w) = Awaits p
        /\ cached w' = {| conn := None; promise := Some p |}
        /\ promises w !! p = None
        /\ promises w' !! p = Some Pending
        /\ (forall q, q <> p -> promises w' !! q = promises w !! q)).
Proof.
  unfold uri_missing, connectToDatabase.
  destruct (MONGODB_URI w) as [[|c u]|] eqn:Hu.
  - split; [|done]. split; [done|]. by intros [? _].
  - destruct (conn (cached w)) as [m|] eqn:Hc.
    + split; [|done]. split; [done|]. by intros (_ & ? & _).
    + destruct (promise (cached w)) as [p|] eqn:Hp.
      * split; [|done]. split; [done|]. by intros (_ & _ & ?).
      * simpl. rewrite Hc. split.
        -- split; [done|]. intros _ E. apply (f_equal connects) in E.
           simpl in E. by apply cons_neq in E.
        -- intros _ _ _. split; [by exists (c :: u)|]. split; [done|].
           split; [done|].
           assert (promises w !! fresh (dom (promises w)) = None) as Hf.
           { apply not_elem_of_dom, is_fresh. }
           split; [done|]. split; [by rewrite lookup_insert_eq|].
           intros q Hq. by rewrite lookup_insert_ne.
  - split; [|done]. split; [done|]. by intros [? _].
Qed.

Lemma connect_starts_attempt_iff_witness :
  (exists uri, Some db_uri = Some uri
     /\ connects (fst (connectToDatabase (initial (Some db_uri)))) = [uri])
  /\ snd (connectToDatabase (initial (Some db_uri))) = Awaits 0%nat.
Proof.
  destruct (connect_starts_attempt_iff (initial (Some db_uri))) as [_ H].
  destruct H as (Hc & Hs & _); try reflexivity.
  split; [exact Hc|exact Hs].
Defined.

(** *** [getMongoose] and [globalThis._mongoose] *)

Definition published_iff_connected (w : World) : Prop :=
  published w = true <-> is_Some (conn (cached w)).

Lemma published_step s s' :
  step s s' -> published_iff_connected (fst s) -> published_iff_connected (fst s').
Proof.
  destruct s as [w ts], s' as [w' ts']. intros [e He] H. simpl in *.
  destruct e as [i|q r'|i]; simpl in He.
  - destruct (ts !! i) as [[| |]|]; try done.
    unfold connectToDatabase in He.
    destruct (MONGODB_URI w) as [[|c u]|]; try by injection He as <- <-.
    destruct (conn (cached w)) eqn:Hc; [by injection He as <- <-|].
    destruct (promise (cached w)); [by injection He as <- <-|].
    injection He as <- <-. unfold published_iff_connected in *. simpl.
    rewrite ?Hc. rewrite ?Hc in H. done.
  - destruct (promises w !! q) as [[| |]|]; try done.
    destruct (is_settled r'); [|done]. by injection He as <- <-.
  - destruct (ts !! i) as [[|q|]|]; try done.
    destruct (promises w !! q) as [r'|] eqn:Hq; [|done].
    destruct (is_settled r'); [|done]. unfold resume in He. rewrite Hq in He.
    by destruct r'; injection He as <- <-.
Qed.

Lemma published_reachable uri ts0 s :
  rtc step (initial uri, ts0) s -> published_iff_connected (fst s).
Proof.
  revert s. apply rtc_ind_r.
  - unfold published_iff_connected. simpl. split; [done|]. by intros [? ?].
  - intros y z _ Hstep IH. by apply (published_step y).
Qed.

Definition completed_hold_conn (s : World * list Task) : Prop :=
  forall i m, snd s !! i = Some (Completed (Return m)) -> conn (cached (fst s)) = Some m.

Lemma connect_keeps_conn w :
  conn (cached (fst (connectToDatabase w))) = conn (cached w).
Proof.
  unfold connectToDatabase. destruct (MONGODB_URI w) as [[|c u]|]; try done.
  destruct (conn (cached w)) eqn:E; [done|].
  destruct (promise (cached w)); [done|]. done.
Qed.

Lemma connect_returns w w' m :
  connectToDatabase w = (w', Completes (Return m)) -> conn (cached w) = Some m.
Proof.
  unfold connectToDatabase. destruct (MONGODB_URI w) as [[|c u]|]; try done.
  destruct (conn (cached w)) eqn:E; [by intros [= _ ->]|].
  destruct (promise (cached w)); done.
Qed.

Lemma completed_step uri s s' :
  Inv uri s -> step s s' -> completed_hold_conn s -> completed_hold_conn s'.
Proof.
  destruct s as [w ts], s' as [w' ts']. intros HI [e He] H.
  unfold completed_hold_conn in *. simpl in *.
  destruct e as [i|q r'|i]; simpl in He.
  - destruct (ts !! i) as [[| |]|] eqn:Hi; try done.
    pose proof (connect_keeps_conn w) as Hconn.
    destruct (connectToDatabase w) as [w1 o] eqn:Hc. injection He as <- <-.
    simpl in Hconn. intros j m Hj. rewrite Hconn.
    destruct (decide (i = j)) as [->|Hne].
    + rewrite list_lookup_insert_eq in Hj by (by eapply lookup_lt_Some).
      injection Hj as Hj. destruct o as [c|p]; [|done]. injection Hj as ->.
      by apply connect_returns in Hc.
    + rewrite list_lookup_insert_ne in Hj by done. by apply (H j).
  - destruct (promises w !! q) as [[| |]|]; try done.
    destruct (is_settled r'); [|done]. injection He as <- <-. done.
  - destruct (ts !! i) as [[|q|]|] eqn:Hi; try done.
    destruct (promises w !! q) as [r'|] eqn:Hq; [|done].
    destruct (is_settled r'); [|done]. unfold resume in He. rewrite Hq in He.
    destruct r' as [|m'|message]; injection He as <- <-.
    + intros j m Hj. destruct (decide (i = j)) as [->|Hne].
      * rewrite list_lookup_insert_eq in Hj by (by eapply lookup_lt_Some). done.
      * rewrite list_lookup_insert_ne in Hj by done. by apply (H j).
    + intros j m Hj. simpl. destruct (decide (i = j)) as [->|Hne].
      * rewrite list_lookup_insert_eq in Hj by (by eapply lookup_lt_Some).
        by injection Hj as ->.
      * rewrite list_lookup_insert_ne in Hj by done.
        pose proof (H j m Hj) as Hcm. destruct HI as [_ HI].
        destruct (promise (cached w)) as [p|] eqn:Hp.
        -- destruct HI as (_ & _ & _ & Hm & Hts). rewrite Forall_lookup in Hts.
           pose proof (Hts i _ Hi) as Hqp. simpl in Hqp. subst q.
           specialize (Hm m Hcm). congruence.
        -- destruct HI as (_ & ? & _). congruence.
    + intros j m Hj. destruct (decide (i = j)) as [->|Hne].
      * rewrite list_lookup_insert_eq in Hj by (by eapply lookup_lt_Some). done.
      * rewrite list_lookup_insert_ne in Hj by done. by apply (H j).
Qed.

Lemma completed_reachable uri ts0 s :
  Forall (fun t => t = NotCalled) ts0 ->
  rtc step (initial uri, ts0) s -> completed_hold_conn s.
Proof.
  intros H0 Hrun.
  assert (Inv uri s /\ completed_hold_conn s) as [_ ?]; [|done].
  revert s Hrun. apply rtc_ind_r.
  - split; [by apply Inv_initial|]. intros i m Hi. simpl in Hi.
    rewrite Forall_lookup in H0. by specialize (H0 i _ Hi).
  - intros y z _ Hstep [HI HC]. split; [by apply (Inv_step uri y)|].
    by apply (completed_step uri y).
Qed.

Lemma getMongoose_facts uri ts0 w ts :
  Forall (fun t => t = NotCalled) ts0 ->
  rtc step (initial uri, ts0) (w, ts) ->
  forall m, conn (cached w) = Some m ->
    connectToDatabase w = (w, Completes (Return m)).
Proof.
  intros H0 Hrun m Hm. pose proof (Inv_reachable uri ts0 _ H0 Hrun) as HI.
  destruct (promise (cached w)) as [p|] eqn:Hp.
  - destruct (Inv_one_attempt _ _ _ _ HI Hp) as (Hu & _). by apply connect_cached.
  - destruct HI as [_ HI]. rewrite Hp in HI. destruct HI as (_ & ? & _).
    congruence.
Qed.

(** X18.  In every run of a process that started without a connection,
    [getMongoose] gives a connection only once a caller has resumed on the
    fulfilled promise: it is then the value of the stored promise, the cache
    is on [globalThis], and [connectToDatabase] returns the same connection
    at once.  Until then [getMongoose] gives null and nothing is on
    [globalThis], also while an attempt is pending or after it has failed. *)
Theorem getMongoose_in_runs
    (uri : option jsstring) (ts0 : list Task) (w : World) (ts : list Task) :
  Forall (fun t => t = NotCalled) ts0 ->
  rtc step (initial uri, ts0) (w, ts) ->
  (forall m, getMongoose w = Some m ->
     published w = true
     /\ connectToDatabase w = (w, Completes (Return m))
     /\ exists p, promise (cached w) = Some p
                  /\ promises w !! p = Some (Fulfilled m))
  /\ (getMongoose w = None -> published w = false)
  /\ (forall i m, ts !! i = Some (Completed (Return m)) -> getMongoose w = Some m).
Proof.
  intros H0 Hrun. pose proof (Inv_reachable uri ts0 _ H0 Hrun) as HI.
  pose proof (published_reachable uri ts0 _ Hrun) as HP. simpl in HP.
  unfold getMongoose. split; [|split].
  - intros m Hm. split; [apply HP; eauto|].
    destruct (promise (cached w)) as [p|] eqn:Hp.
    + destruct (Inv_one_attempt _ _ _ _ HI Hp) as (Hu & _ & _ & Hcm & _).
      split; [by apply connect_cached|]. exists p. split; [done|]. by apply Hcm.
    + destruct HI as [_ HI]. rewrite Hp in HI. destruct HI as (_ & ? & _).
      congruence.
  - intros Hn. destruct (published w) eqn:E; [|done].
    apply HP in E as [m E]. congruence.
  - intros i m Hi. by apply (completed_reachable uri ts0 (w, ts) H0 Hrun i m).
Qed.

Lemma getMongoose_in_runs_witness :
  getMongoose (fst (run_from db_uri two_callers both_then_connected)) = Some 5%nat
  /\ published (fst (run_from db_uri two_callers both_then_connected)) = true.
Proof.
  destruct (getMongoose_in_runs (Some db_uri) two_callers
              (fst (run_from db_uri two_callers both_then_connected))
              (snd (run_from db_uri two_callers both_then_connected)))
    as (H1 & _ & H3).
  - repeat constructor.
  - apply (exec_steps both_then_connected). reflexivity.
  - split.
    + apply (H3 0%nat). reflexivity.
    + apply (H1 5%nat). reflexivity.
Defined.

(** *** Module reloads *)

(** Line 24, run again when the module is evaluated anew (a hot reload):
    [cached] is the object on [globalThis] if a call has put it there, and a
    new empty cache otherwise.  The promises and the connection attempts made
    so far are the process's and stay.  Callers still suspended in the old
    module keep the old cache object; they are not followed here. *)
Definition module_init (w : World) : World :=
  if published w then w
  else {| MONGODB_URI := MONGODB_URI w;
          cached := {| conn := None; promise := None |};
          published := false;
          promises := promises w;
          connects := connects w |}.

(** X19.  In every run of a process that started without a connection: once a
    connection is cached, a module reload keeps the cache and the next call
    returns that connection; while the one attempt is pending, or after it has
    failed, a reload starts from an empty cache, and the next call calls
    [mongoose.connect] a second time. *)
Theorem reload_keeps_only_connection
    (uri : option jsstring) (ts0 : list Task) (w : World) (ts : list Task) :
  Forall (fun t => t = NotCalled) ts0 ->
  rtc step (initial uri, ts0) (w, ts) ->
  (forall m, conn (cached w) = Some m ->
     module_init w = w
     /\ connectToDatabase (module_init w) = (w, Completes (Return m)))
  /\ (forall p, conn (cached w) = None -> promise (cached w) = Some p ->
        cached (module_init w) = {| conn := None; promise := None |}
        /\ exists u, uri = Some u /\ connects w = [u]
             /\ connects (fst (connectToDatabase (module_init w))) = [u; u]).
Proof.
  intros H0 Hrun. pose proof (Inv_reachable uri ts0 _ H0 Hrun) as HI.
  pose proof (published_reachable uri ts0 _ Hrun) as HP. simpl in HP.
  pose proof (getMongoose_facts uri ts0 w ts H0 Hrun) as HG.
  split.
  - intros m Hm. assert (published w = true) as Hpub by (apply HP; eauto).
    unfold module_init. rewrite Hpub. split; [done|]. by apply HG.
  - intros p Hc Hp. assert (published w = false) as Hpub.
    { destruct (published w) eqn:E; [|done]. apply HP in E as [m E]. congruence. }
    unfold module_init. rewrite Hpub. split; [done|].
    destruct (Inv_one_attempt _ _ _ _ HI Hp) as (Hu & Hcs & _).
    destruct HI as [Huri _]. unfold uri_missing in Hu.
    destruct (MONGODB_URI w) as [[|c u]|] eqn:Henv; try done.
    exists (c :: u). subst uri. split; [done|]. split; [done|].
    rewrite (connect_first _ (c :: u)) by done. simpl. by rewrite Hcs.
Qed.

Definition failed_once : list Event :=
  [Call 0; Settle 0 (Rejected "ECONNREFUSED"); Resume 0].

Lemma reload_keeps_only_connection_witness :
  cached (module_init (fst (run_from db_uri two_callers failed_once)))
    = {| conn := None; promise := None |}
  /\ exists u, Some db_uri = Some u
       /\ connects (fst (run_from db_uri two_callers failed_once)) = [u]
       /\ connects (fst (connectToDatabase
            (module_init (fst (run_from db_uri two_callers failed_once))))) = [u; u].
Proof.
  destruct (reload_keeps_only_connection (Some db_uri) two_callers
              (fst (run_from db_uri two_callers failed_once))
              (snd (run_from db_uri two_callers failed_once)))
    as (_ & H).
  - repeat constructor.
  - apply (exec_steps failed_once). reflexivity.
  - apply (H 0%nat); reflexivity.
Defined.

End CacheFacts.

(** ** The limits of the cache: a missing URI, a module evaluated anew *)

Module CacheLimits.
Import JsString Mongodb CacheFacts.

(** The same process after [MONGODB_URI] has been removed from its
    environment: line 36 reads it anew at every call. *)
Definition without_uri (w : World) : World :=
  {| MONGODB_URI := None;
     cached := cached w;
     published := published w;
     promises := promises w;
     connects := connects w |}.

(** One caller has called and is suspended: the attempt is in flight. *)
Definition attempt_pending : World :=
  fst (run_from db_uri two_callers [Call 0]).

(** One caller has called, the attempt has failed and the caller has seen the
    failure. *)
Definition attempt_failed : World :=
  fst (run_from db_uri two_callers failed_once).

(** While the one attempt is in flight, with promise 0 in the slot: a call
    made without the URI throws the missing-configuration error, it does not
    await the attempt; and after the module has been evaluated anew the slot
    is empty and a call calls [mongoose.connect] a second time, awaiting a
    promise of its own. *)
Lemma second_attempt_while_pending :
  cached attempt_pending = {| conn := None; promise := Some 0 |}
  /\ promises attempt_pending !! 0 = Some Pending
  /\ connects attempt_pending = [db_uri]
  /\ promise (cached (without_uri attempt_pending)) = Some 0
  /\ connectToDatabase (without_uri attempt_pending)
       = (without_uri attempt_pending, Completes (Throw missing_uri))
  /\ promise (cached (module_init attempt_pending)) = None
  /\ snd (connectToDatabase (module_init attempt_pending)) = Awaits 1
  /\ connects (fst (connectToDatabase (module_init attempt_pending)))
       = [db_uri; db_uri]
  /\ promises (fst (connectToDatabase (module_init attempt_pending)))
       = {[ 0 := Pending; 1 := Pending ]}.
Proof. by vm_compute. Qed.

(** After the one attempt has failed with [ECONNREFUSED], the rejected
    promise 0 still in the slot: a call made without the URI fails with the
    missing-configuration error, not with the error of the attempt; and after
    the module has been evaluated anew the slot is empty and a call starts a
    fresh attempt, in the same process. *)
Lemma fresh_attempt_after_failure :
  cached attempt_failed = {| conn := None; promise := Some 0 |}
  /\ promises attempt_failed !! 0 = Some (Rejected "ECONNREFUSED")
  /\ snd (run_from db_uri two_callers failed_once) !! 0
       = Some (Completed (Throw "ECONNREFUSED"))
  /\ connects attempt_failed = [db_uri]
  /\ connectToDatabase (without_uri attempt_failed)
       = (without_uri attempt_failed, Completes (Throw missing_uri))
  /\ missing_uri <> "ECONNREFUSED"%string
  /\ promise (cached (module_init attempt_failed)) = None
  /\ snd (connectToDatabase (module_init attempt_failed)) = Awaits 1
  /\ connects (fst (connectToDatabase (module_init attempt_failed)))
       = [db_uri; db_uri]
  /\ promises (fst (connectToDatabase (module_init attempt_failed))) !! 1
       = Some Pending.
Proof. by vm_compute. Qed.

End CacheLimits.
